(** * Caption windows of the caption post-processor

    A shallow embedding of [caption_post_processor.py]: the caption entries,
    the caption windows and the part of [CaptionPostProcessor] that assigns
    captions to windows, completes windows, summarises them and reports.

    Conventions of the embedding.
    - Python [float] is IEEE binary64, modelled by Rocq's primitive floats:
      [start_time + window_duration] is [PrimFloat.add], the comparisons are
      [PrimFloat.leb] and [PrimFloat.ltb] (false on NaN, as in Python).
    - [CaptionWindow] objects are mutable and shared (the processor appends
      the very object that is its current window to [completed_windows]), so
      the processor carries an object store [heap]; [current_window] and
      [completed_windows] hold addresses into it.
    - A [str] is modelled by its UTF-8 bytes.
    - The Gemini client, [datetime.fromtimestamp], [strftime] and the
      formatting of a float inside an f-string are outside the program:
      they are the fields of [Externals].  The timestamp of a caption is a
      reading of [time.time()], which [fromtimestamp] accepts; the end of a
      window, the sum of a start and the window duration, need not be one.
    - The capture loop is modelled at two grains.  In a run of events, an
      [Ingest] is the tail of an [analyze] thread and a [Tick] a call of
      [check_window_completion], each taken as one step that runs to its
      end before the next starts.  The analysis threads share the
      processor with the main thread without a lock: a schedule takes a
      thread through the tail of [analyze] one access to the processor at
      a time, and a sequence of writes is what any interleaving of the
      threads and the main thread does to the shared state.
    - Camera handling and diagnostic prints are left out; the output
      modelled is the report of [print_summary_report], the lines the
      display loop draws on a frame and the lines [main] itself prints. *)

From Stdlib Require Import Floats ZArith Ascii String.
From stdpp Require Import base list strings pretty gmap.

Local Open Scope string_scope.

(** ** Python strings *)

Module Py.

(** A [str] is modelled by its UTF-8 bytes.  The characters [str.strip]
    removes are those of [str.isspace]: U+0009 to U+000D, U+001C to
    U+0020, U+0085, U+00A0, U+1680, U+2000 to U+200A, U+2028, U+2029,
    U+202F, U+205F and U+3000. *)

(** The whitespace characters of one byte. *)
Definition isspace (c : ascii) : bool :=
  let n := nat_of_ascii c in
  ((9 <=? n)%nat && (n <=? 13)%nat) || ((28 <=? n)%nat && (n <=? 32)%nat).

(** The whitespace characters of two bytes: U+0085 and U+00A0. *)
Definition isspace2 (c1 c2 : ascii) : bool :=
  let n1 := nat_of_ascii c1 in
  let n2 := nat_of_ascii c2 in
  (n1 =? 194)%nat && ((n2 =? 133)%nat || (n2 =? 160)%nat).

(** The whitespace characters of three bytes: U+1680, U+2000 to U+200A,
    U+2028, U+2029, U+202F, U+205F and U+3000. *)
Definition isspace3 (c1 c2 c3 : ascii) : bool :=
  let n1 := nat_of_ascii c1 in
  let n2 := nat_of_ascii c2 in
  let n3 := nat_of_ascii c3 in
  ((n1 =? 225)%nat && (n2 =? 154)%nat && (n3 =? 128)%nat)
  || ((n1 =? 226)%nat && (n2 =? 128)%nat
      && (((128 <=? n3)%nat && (n3 <=? 138)%nat)
          || (n3 =? 168)%nat || (n3 =? 169)%nat || (n3 =? 175)%nat))
  || ((n1 =? 226)%nat && (n2 =? 129)%nat && (n3 =? 159)%nat)
  || ((n1 =? 227)%nat && (n2 =? 128)%nat && (n3 =? 128)%nat).

Fixpoint lstrip (s : string) : string :=
  match s with
  | EmptyString => EmptyString
  | String c1 s1 =>
      if isspace c1 then lstrip s1
      else
        match s1 with
        | EmptyString => s
        | String c2 s2 =>
            if isspace2 c1 c2 then lstrip s2
            else
              match s2 with
              | EmptyString => s
              | String c3 s3 => if isspace3 c1 c2 c3 then lstrip s3 else s
              end
        end
  end.

(** [rstrip] on the reversed string: its bytes come last byte first. *)
Fixpoint rstrip_rev (s : string) : string :=
  match s with
  | EmptyString => EmptyString
  | String c1 s1 =>
      if isspace c1 then rstrip_rev s1
      else
        match s1 with
        | EmptyString => s
        | String c2 s2 =>
            if isspace2 c2 c1 then rstrip_rev s2
            else
              match s2 with
              | EmptyString => s
              | String c3 s3 =>
                  if isspace3 c3 c2 c1 then rstrip_rev s3 else s
              end
        end
  end.

Definition rstrip (s : string) : string :=
  String.rev (rstrip_rev (String.rev s)).

(** [s.strip()]: leading and trailing whitespace removed. *)
Definition strip (s : string) : string := rstrip (lstrip s).

Definition newline : string := String (ascii_of_nat 10) EmptyString.

Definition dquote : string := String (ascii_of_nat 34) EmptyString.

(** [sep.join(parts)] *)
Fixpoint join (sep : string) (parts : list string) : string :=
  match parts with
  | [] => ""
  | [x] => x
  | x :: rest => x +:+ sep +:+ join sep rest
  end.

(** [c * n] for a one-character string [c]. *)
Fixpoint repeat_str (c : string) (n : nat) : string :=
  match n with
  | O => ""
  | S n' => c +:+ repeat_str c n'
  end.

Inductive exn : Type :=
| AttributeError (msg : string)
| Exception (msg : string).

(** The instants [datetime.fromtimestamp] accepts here: those of the years
    1 to 9999.  A comparison with NaN is false, so NaN is refused. *)
Definition fromtimestamp_error (t : float) : option string :=
  if ((-62135596800 <=? t) && (t <? 253402300800))%float then None
  else Some "year is out of range".

End Py.

(** ** External collaborators *)

(** What [model.generate_content(prompt)] followed by reading
    [response.text] gives: the text, or an exception with its message. *)
Inductive GenResult : Type :=
| GenText (text : string)
| GenRaise (msg : string).

Record Externals : Type := {
  (** [genai.GenerativeModel(name)]: a handle (here the name) or an
      exception message. *)
  GenerativeModel : string -> string + string;
  (** [model.generate_content(prompt).text], for the model with the given
      handle, after the given earlier prompts of this processor. *)
  generate_content : string -> list string -> string -> GenResult;
  (** [datetime.fromtimestamp(t)]: [None] when it returns, or the message
      of the exception it raises (NaN, an infinity, an instant outside
      the years [datetime] supports). *)
  fromtimestamp_error : float -> option string;
  (** [datetime.fromtimestamp(t).strftime('%H:%M:%S')], when
      [fromtimestamp] returns *)
  strftime_HMS : float -> string;
  (** [f"{x}"] for a float [x] *)
  format_float : float -> string
}.

(** ** CaptionEntry *)

Record CaptionEntry : Type := {
  text : string;
  timestamp : float
}.

(** [CaptionEntry.__init__].  The field [datetime] is
    [fromtimestamp(timestamp)], which serves [__str__] only; the timestamp
    is a reading of [time.time()], which [fromtimestamp] accepts. *)
Definition CaptionEntry_init (t : string) (ts : float) : CaptionEntry :=
  {| text := Py.strip t; timestamp := ts |}.

(** [CaptionEntry.__str__] *)
Definition CaptionEntry_str (E : Externals) (c : CaptionEntry) : string :=
  "[" +:+ strftime_HMS E (timestamp c) +:+ "] " +:+ text c.

(** ** CaptionWindow *)

Record CaptionWindow : Type := {
  start_time : float;
  end_time : float;
  captions : list CaptionEntry;
  summary : string;
  summarized : bool
}.

Definition CaptionWindow_init (start window_duration : float) : CaptionWindow :=
  {| start_time := start;
     end_time := (start + window_duration)%float;
     captions := [];
     summary := "";
     summarized := false |}.

Definition with_captions (cs : list CaptionEntry) (w : CaptionWindow) : CaptionWindow :=
  {| start_time := start_time w; end_time := end_time w; captions := cs;
     summary := summary w; summarized := summarized w |}.

(** [window.summary = s; window.summarized = True] *)
Definition set_summary (s : string) (w : CaptionWindow) : CaptionWindow :=
  {| start_time := start_time w; end_time := end_time w; captions := captions w;
     summary := s; summarized := true |}.

(** [self.start_time <= caption.timestamp < self.end_time] *)
Definition in_window (w : CaptionWindow) (c : CaptionEntry) : bool :=
  (start_time w <=? timestamp c)%float && (timestamp c <? end_time w)%float.

(** [add_caption]: the window afterwards and the returned boolean. *)
Definition add_caption (w : CaptionWindow) (c : CaptionEntry) : CaptionWindow * bool :=
  if in_window w c then (with_captions (captions w ++ [c]) w, true)
  else (w, false).

(** [current_time >= self.end_time] *)
Definition is_complete (w : CaptionWindow) (current_time : float) : bool :=
  (end_time w <=? current_time)%float.

Definition get_captions_text (E : Externals) (w : CaptionWindow) : string :=
  Py.join Py.newline (map (CaptionEntry_str E) (captions w)).

(** The exception [get_timestamp_range] raises, if any: that of
    [fromtimestamp] on the start, or else on the end. *)
Definition range_error (E : Externals) (w : CaptionWindow) : option string :=
  match fromtimestamp_error E (start_time w) with
  | Some e => Some e
  | None => fromtimestamp_error E (end_time w)
  end.

(** What [get_timestamp_range] returns when it does not raise. *)
Definition get_timestamp_range (E : Externals) (w : CaptionWindow) : string :=
  strftime_HMS E (start_time w) +:+ " - " +:+ strftime_HMS E (end_time w).

(** ** CaptionPostProcessor *)

(** Addresses of [CaptionWindow] objects in the store. *)
Abbreviation addr := nat (only parsing).

Record CaptionPostProcessor : Type := {
  api_key : string;
  camera_index : Z;
  window_duration : float;
  model : option string;
  running : bool;
  current_window : option addr;
  completed_windows : list addr;
  latest_description : string;
  (** the [CaptionWindow] objects created so far; an address is an index *)
  heap : list CaptionWindow;
  (** the text prompts this processor has passed to [generate_content]:
      the probes of [initialize_gemini] and the prompts of
      [summarize_window]; the calls of [analyze_frame], which carry an
      image, are not recorded *)
  calls : list string
}.

Definition with_model (m : option string) (p : CaptionPostProcessor) :=
  {| api_key := api_key p; camera_index := camera_index p;
     window_duration := window_duration p; model := m; running := running p;
     current_window := current_window p;
     completed_windows := completed_windows p;
     latest_description := latest_description p; heap := heap p;
     calls := calls p |}.

Definition with_running (b : bool) (p : CaptionPostProcessor) :=
  {| api_key := api_key p; camera_index := camera_index p;
     window_duration := window_duration p; model := model p; running := b;
     current_window := current_window p;
     completed_windows := completed_windows p;
     latest_description := latest_description p; heap := heap p;
     calls := calls p |}.

Definition with_current_window (c : option addr) (p : CaptionPostProcessor) :=
  {| api_key := api_key p; camera_index := camera_index p;
     window_duration := window_duration p; model := model p;
     running := running p; current_window := c;
     completed_windows := completed_windows p;
     latest_description := latest_description p; heap := heap p;
     calls := calls p |}.

Definition with_completed_windows (l : list addr) (p : CaptionPostProcessor) :=
  {| api_key := api_key p; camera_index := camera_index p;
     window_duration := window_duration p; model := model p;
     running := running p; current_window := current_window p;
     completed_windows := l;
     latest_description := latest_description p; heap := heap p;
     calls := calls p |}.

Definition with_latest_description (d : string) (p : CaptionPostProcessor) :=
  {| api_key := api_key p; camera_index := camera_index p;
     window_duration := window_duration p; model := model p;
     running := running p; current_window := current_window p;
     completed_windows := completed_windows p;
     latest_description := d; heap := heap p; calls := calls p |}.

Definition with_heap (h : list CaptionWindow) (p : CaptionPostProcessor) :=
  {| api_key := api_key p; camera_index := camera_index p;
     window_duration := window_duration p; model := model p;
     running := running p; current_window := current_window p;
     completed_windows := completed_windows p;
     latest_description := latest_description p; heap := h;
     calls := calls p |}.

Definition with_calls (l : list string) (p : CaptionPostProcessor) :=
  {| api_key := api_key p; camera_index := camera_index p;
     window_duration := window_duration p; model := model p;
     running := running p; current_window := current_window p;
     completed_windows := completed_windows p;
     latest_description := latest_description p; heap := heap p;
     calls := l |}.

(** Mutation of the window object at address [a]. *)
Definition store (a : addr) (w : CaptionWindow) (p : CaptionPostProcessor) :=
  with_heap (<[a := w]> (heap p)) p.

(** The object the current window refers to. *)
Definition current_object (p : CaptionPostProcessor) : option CaptionWindow :=
  match current_window p with
  | Some a => heap p !! a
  | None => None
  end.

(** [self.cw = CaptionWindow(start, self.window_duration)]: a new object. *)
Definition new_current_window (start : float) (p : CaptionPostProcessor) :=
  with_current_window (Some (length (heap p)))
    (with_heap (heap p ++ [CaptionWindow_init start (window_duration p)]) p).

(** *** Construction *)

Definition model_names : list string :=
  ["gemini-2.0-flash"; "gemini-2.5-flash"; "gemini-2.0-flash-exp";
   "gemini-flash-latest"; "gemini-pro-latest"].

(** The loop of [initialize_gemini] over the remaining model names. *)
Fixpoint try_models (E : Externals) (names : list string)
    (p : CaptionPostProcessor) : Py.exn + CaptionPostProcessor :=
  match names with
  | [] => inl (Py.Exception "Could not initialize any Gemini model")
  | model_name :: rest =>
      match GenerativeModel E model_name with
      | inl _ => try_models E rest p
      | inr m =>
          let p1 := with_model (Some m) p in
          let p2 := with_calls (calls p1 ++ ["Hello"]) p1 in
          match generate_content E m (calls p1) "Hello" with
          | GenText t => if String.eqb t "" then try_models E rest p2 else inr p2
          | GenRaise _ => try_models E rest p2
          end
      end
  end.

Definition initialize_gemini (E : Externals) (p : CaptionPostProcessor)
    : Py.exn + CaptionPostProcessor :=
  try_models E model_names p.

(** [CaptionPostProcessor.__init__] *)
Definition CaptionPostProcessor_init (E : Externals) (key : string)
    (camera : Z) (duration : float) : Py.exn + CaptionPostProcessor :=
  initialize_gemini E
    {| api_key := key; camera_index := camera; window_duration := duration;
       model := None; running := false;
       current_window := None; completed_windows := [];
       latest_description := "Initializing..."; heap := []; calls := [] |}.

(** *** Summaries *)

(** The prompt built by [summarize_window] for window [w]. *)
Definition summary_prompt (E : Externals) (p : CaptionPostProcessor)
    (w : CaptionWindow) : string :=
  Py.join Py.newline
    [ "";
      "Analyze the following video captions from a "
        +:+ format_float E (window_duration p)
        +:+ "-second window and create a declarative summary focused on object movements.";
      "";
      "For each object or person in the scene, identify:";
      "1. Initial location/position";
      "2. Movement trajectory (where it moved to)";
      "3. Final location/position";
      "4. Whether it remained stationary";
      "";
      "Format the summary as:";
      Py.dquote
        +:+ "Object started at [initial_location], moved to [final_location]. Object2 began at [initial_location], remained stationary. Object3 started at [initial_location], moved to [intermediate_location], then to [final_location]."
        +:+ Py.dquote;
      "";
      "Focus on:";
      "- Object identification (Person, laptop, cup, papers, phone, etc.)";
      "- Clear starting positions";
      "- Movement paths and destinations";
      "- Stationary objects that didn't move";
      "- Spatial relationships and positions";
      "";
      "Avoid:";
      "- Colors, lighting, or visual details";
      "- Emotional or subjective descriptions";
      "- Background elements unless they moved";
      "- Static environmental descriptions";
      "";
      "Captions from " +:+ get_timestamp_range E w +:+ ":";
      get_captions_text E w;
      "";
      "Provide a declarative summary of object movements:";
      "" ].

(** [summarize_window(window)], for the window object at address [a].
    An address the store does not hold cannot occur (see [wf]); the
    processor is then left as it is. *)
Definition summarize_window (E : Externals) (a : addr)
    (p : CaptionPostProcessor) : CaptionPostProcessor :=
  match heap p !! a with
  | None => p
  | Some w =>
      match model p, captions w with
      | None, _ | _, [] => store a (set_summary "No captions to summarize" w) p
      | Some m, _ :: _ =>
          match range_error E w with
          | Some e =>
              (* the prompt is built inside the [try]: no call is made *)
              store a (set_summary ("Summary error: " +:+ e) w) p
          | None =>
              let prompt := summary_prompt E p w in
              let p1 := with_calls (calls p ++ [prompt]) p in
              match generate_content E m (calls p) prompt with
              | GenText t => store a (set_summary (Py.strip t) w) p1
              | GenRaise e =>
                  store a (set_summary ("Summary error: " +:+ e) w) p1
              end
          end
      end
  end.

(** *** Completion and rollover *)

Definition complete_current_window (E : Externals)
    (p : CaptionPostProcessor) : CaptionPostProcessor :=
  match current_window p with
  | None => p
  | Some a =>
      match heap p !! a with
      | None => p
      | Some w =>
          let p1 :=
            match captions w with
            | _ :: _ => summarize_window E a p
            | [] => store a (set_summary "No captions captured" w) p
            end in
          with_completed_windows (completed_windows p1 ++ [a]) p1
      end
  end.

(** [check_window_completion], with [now] the value of [time.time()]. *)
Definition check_window_completion (E : Externals) (now : float)
    (p : CaptionPostProcessor) : CaptionPostProcessor :=
  match current_object p with
  | None => p
  | Some w =>
      if is_complete w now then
        let p1 := complete_current_window E p in
        match current_object p1 with
        | Some w1 => new_current_window (end_time w1) p1
        | None => p1
        end
      else p
  end.

(** *** Ingestion *)

(** The tail of [analyze]: what an analysis thread does with the
    description it obtained and the [time.time()] it then read. *)
Definition ingest (description : string) (ts : float)
    (p : CaptionPostProcessor) : CaptionPostProcessor :=
  let caption := CaptionEntry_init description ts in
  let p1 := with_latest_description description p in
  let p2 :=
    match current_window p1 with
    | None => new_current_window ts p1
    | Some _ => p1
    end in
  match current_window p2 with
  | Some a =>
      match heap p2 !! a with
      | Some w => store a (fst (add_caption w caption)) p2
      | None => p2
      end
  | None => p2
  end.

(** *** The capture loop as a sequence of events *)

(** An [Ingest] is an analysis thread that runs the tail of [analyze] from
    its start to its end, a [Tick] a call of [check_window_completion]
    with the clock reading [now]; in a run of events each is done before
    the next starts. *)
Inductive Event : Type :=
| Ingest (description : string) (ts : float)
| Tick (now : float).

Definition step (E : Externals) (p : CaptionPostProcessor) (ev : Event)
    : CaptionPostProcessor :=
  match ev with
  | Ingest description ts => ingest description ts p
  | Tick now => check_window_completion E now p
  end.

Definition run_events (E : Externals) (p : CaptionPostProcessor)
    (evs : list Event) : CaptionPostProcessor :=
  fold_left (step E) evs p.

(** [cleanup] *)
Definition cleanup (p : CaptionPostProcessor) : CaptionPostProcessor :=
  with_running false p.

(** [capture_and_display]: the events of the loop, then [cleanup] in the
    [finally] clause.  The loop's own [except Exception] swallows what the
    camera and the display raise; the executions modelled are those in
    which [cleanup] returns, so that the call returns normally. *)
Definition capture_and_display (E : Externals) (evs : list Event)
    (p : CaptionPostProcessor) : CaptionPostProcessor :=
  cleanup (run_events E p evs).

(** *** Report *)

(** The lines printed by the body of the report loop for window number
    [i]. *)
Definition report_entry (E : Externals) (i : nat) (w : CaptionWindow)
    : list string :=
  [ Py.newline +:+ "Window " +:+ pretty i +:+ ": " +:+ get_timestamp_range E w;
    "Captions: " +:+ pretty (length (captions w));
    if summarized w then "Summary: " +:+ summary w
    else "Summary: Not available";
    Py.repeat_str "-" 40 ].

(** [enumerate(windows, i)] followed by the loop: the lines printed, and
    the message of the exception that ended the loop, if
    [get_timestamp_range] raised on a window. *)
Fixpoint report_entries (E : Externals) (i : nat) (ws : list CaptionWindow)
    : list string * option string :=
  match ws with
  | [] => ([], None)
  | w :: rest =>
      match range_error E w with
      | Some e => ([], Some e)
      | None =>
          let (printed, raised) := report_entries E (S i) rest in
          ((report_entry E i w ++ printed)%list, raised)
      end
  end.

(** The objects a list of addresses refers to. *)
Definition objects (h : list CaptionWindow) (l : list addr) : list CaptionWindow :=
  omap (fun a => h !! a) l.

(** [print_summary_report]: the strings passed to [print], in order, and
    the message of the exception it raised, if any. *)
Definition print_summary_report (E : Externals) (p : CaptionPostProcessor)
    : list string * option string :=
  match completed_windows p with
  | [] => (["No completed windows to report"], None)
  | _ :: _ =>
      let (printed, raised) :=
        report_entries E 1 (objects (heap p) (completed_windows p)) in
      (([ Py.newline +:+ Py.repeat_str "=" 80;
          "CAPTION SUMMARY REPORT";
          Py.repeat_str "=" 80 ]
        ++ printed)%list, raised)
  end.

(** *** run *)

(** The names defined in the body of [class CaptionPostProcessor]. *)
Definition class_attributes : list string :=
  ["__init__"; "initialize_gemini"; "initialize_camera"; "analyze_frame";
   "complete_current_window"; "check_window_completion"; "summarize_window";
   "get_display_text"; "capture_and_display"; "cleanup";
   "print_summary_report"; "run"].

(** The attributes [__init__] (and [main], for [frame_interval]) set on
    the instance. *)
Definition instance_attributes : list string :=
  ["api_key"; "camera_index"; "window_duration"; "cap"; "model"; "running";
   "current_window"; "completed_windows"; "latest_description";
   "frame_count"; "last_frame_time"; "frame_interval"].

(** [self.<name>()] for a method without arguments other than [self] and
    without effect on the windows: the lookup of the name on the object. *)
Definition lookup_attribute (name : string) : Py.exn + unit :=
  if bool_decide (name ∈ (instance_attributes ++ class_attributes)%list) then inr tt
  else inl (Py.AttributeError
              ("'CaptionPostProcessor' object has no attribute '" +:+ name +:+ "'")).

(** Lines 394 to 397 of [run]: summarise the current window if it has
    content, and append it to the completed windows. *)
Definition seal_final_window (E : Externals) (p : CaptionPostProcessor)
    : CaptionPostProcessor :=
  match current_window p with
  | None => p
  | Some a =>
      match heap p !! a with
      | Some w =>
          match captions w with
          | _ :: _ =>
              let p1 := summarize_window E a p in
              with_completed_windows (completed_windows p1 ++ [a]) p1
          | [] => p
          end
      | None => p
      end
  end.

(** How a call of [run] ends. *)
Inductive Outcome : Type :=
| Returned (p : CaptionPostProcessor) (report : list string)
| Raised (e : Py.exn) (p : CaptionPostProcessor).

(** [run], for a capture loop that performs the events [evs]. *)
Definition run (E : Externals) (evs : list Event) (p : CaptionPostProcessor)
    : Outcome :=
  let p1 := with_running true p in
  let p2 := capture_and_display E evs p1 in
  match lookup_attribute "process_captions" with
  | inl e => Raised e p2
  | inr _ =>
      let p3 := seal_final_window E p2 in
      match print_summary_report E p3 with
      | (report, None) => Returned p3 report
      | (_, Some e) => Raised (Py.Exception e) p3
      end
  end.

(** * Vocabulary of the properties *)

Local Open Scope list_scope.

Definition range (w : CaptionWindow) : float * float :=
  (start_time w, end_time w).

(** Consecutive windows of a list meet: the next one starts where the
    previous one ends. *)
Definition contiguous (ws : list CaptionWindow) : Prop :=
  forall k w1 w2,
    ws !! k = Some w1 -> ws !! S k = Some w2 -> start_time w2 = end_time w1.

(** The windows of the processor in order: the completed ones, then the
    current one. *)
Definition timeline_addrs (p : CaptionPostProcessor) : list addr :=
  completed_windows p ++ option_list (current_window p).

Definition timeline (p : CaptionPostProcessor) : list CaptionWindow :=
  objects (heap p) (timeline_addrs p).

(** [p1] is [p] with the window [w] at address [a] summarised, nothing
    else about the windows changed. *)
Definition summarised_at (a : addr) (w : CaptionWindow)
    (p p1 : CaptionPostProcessor) : Prop :=
  exists s,
    heap p1 = <[a := set_summary s w]> (heap p)
    /\ completed_windows p1 = completed_windows p
    /\ current_window p1 = current_window p
    /\ window_duration p1 = window_duration p
    /\ model p1 = model p.

(** What holds of the windows of a processor throughout the capture loop. *)
Record wf (p : CaptionPostProcessor) : Prop := {
  wf_current : forall a, current_window p = Some a ->
    exists w, heap p !! a = Some w /\ summarized w = false;
  wf_completed : forall a, a ∈ completed_windows p ->
    exists w, heap p !! a = Some w /\ summarized w = true;
  wf_origin : current_window p = None -> completed_windows p = [];
  wf_contiguous : contiguous (timeline p)
}.

(** Every window object spans exactly the configured duration. *)
Definition fixed_duration (p : CaptionPostProcessor) : Prop :=
  forall a w, heap p !! a = Some w ->
    end_time w = (start_time w + window_duration p)%float.

(** Everything in the code that touches the windows: the events of the
    capture loop and the block of [run] that appends the last window. *)
Inductive Action : Type :=
| Loop (ev : Event)
| SealFinalWindow.

Definition act (E : Externals) (p : CaptionPostProcessor) (x : Action)
    : CaptionPostProcessor :=
  match x with
  | Loop ev => step E p ev
  | SealFinalWindow => seal_final_window E p
  end.



(** ** Stubs for concrete runs *)

Module Scenario.

(** A Gemini stub whose first model answers the probe and every prompt. *)
Definition answering : Externals :=
  {| GenerativeModel := inr;
     generate_content := fun _ _ _ => GenText " A person sat down at the desk. ";
     fromtimestamp_error := Py.fromtimestamp_error;
     strftime_HMS := fun _ => "00:00:00";
     format_float := fun _ => "10.0" |}.

(** A Gemini stub that answers the probe and then times out. *)
Definition timing_out : Externals :=
  {| GenerativeModel := inr;
     generate_content := fun _ _ prompt =>
       if String.eqb prompt "Hello" then GenText "Hi"
       else GenRaise "504 Deadline Exceeded";
     fromtimestamp_error := Py.fromtimestamp_error;
     strftime_HMS := fun _ => "00:00:00";
     format_float := fun _ => "10.0" |}.

(** The processor [CaptionPostProcessor(key, 0, d)] under these stubs. *)
Definition fresh (d : float) : CaptionPostProcessor :=
  {| api_key := "key"; camera_index := 0; window_duration := d;
     model := Some "gemini-2.0-flash"; running := false;
     current_window := None; completed_windows := [];
     latest_description := "Initializing..."; heap := [];
     calls := ["Hello"] |}.

(** The ranges of the completed windows and of the current window. *)
Definition completed_ranges (p : CaptionPostProcessor) : list (float * float) :=
  range <$> objects (heap p) (completed_windows p).

Definition current_range (p : CaptionPostProcessor) : option (float * float) :=
  range <$> current_object p.

End Scenario.

(** * Vocabulary for runs of the capture loop *)

(** The prompts a tick passes to the model when it completes window [w]:
    one when the window has captions and a model is set, none otherwise. *)
Definition summary_calls (E : Externals) (p : CaptionPostProcessor)
    (w : CaptionWindow) : list string :=
  match model p, captions w, range_error E w with
  | Some _, _ :: _, None => [summary_prompt E p w]
  | _, _, _ => []
  end.

(** The four ways a step of the capture loop acts on the processor. *)
Inductive Transition (E : Externals) (p : CaptionPostProcessor)
    : Event -> CaptionPostProcessor -> Prop :=
| T_first description ts p' :
    current_window p = None ->
    heap p' = heap p ++ [fst (add_caption
                                (CaptionWindow_init ts (window_duration p))
                                (CaptionEntry_init description ts))] ->
    completed_windows p' = completed_windows p ->
    current_window p' = Some (length (heap p)) ->
    calls p' = calls p ->
    window_duration p' = window_duration p -> model p' = model p ->
    Transition E p (Ingest description ts) p'
| T_offer description ts a w p' :
    current_window p = Some a -> heap p !! a = Some w ->
    heap p' = <[a := fst (add_caption w (CaptionEntry_init description ts))]>
                (heap p) ->
    completed_windows p' = completed_windows p ->
    current_window p' = Some a ->
    calls p' = calls p ->
    window_duration p' = window_duration p -> model p' = model p ->
    Transition E p (Ingest description ts) p'
| T_idle now :
    (forall w, current_object p = Some w -> is_complete w now = false) ->
    Transition E p (Tick now) p
| T_roll now a w s p' :
    current_window p = Some a -> heap p !! a = Some w ->
    is_complete w now = true ->
    heap p' = <[a := set_summary s w]> (heap p)
              ++ [CaptionWindow_init (end_time w) (window_duration p)] ->
    completed_windows p' = completed_windows p ++ [a] ->
    current_window p' = Some (length (heap p)) ->
    calls p' = calls p ++ summary_calls E p w ->
    window_duration p' = window_duration p -> model p' = model p ->
    Transition E p (Tick now) p'.

(** The captions the analysis threads offered, in arrival order. *)
Definition ingested (evs : list Event) : list CaptionEntry :=
  omap (fun ev => match ev with
                  | Ingest description ts => Some (CaptionEntry_init description ts)
                  | Tick _ => None
                  end) evs.



(** The completed windows that hold captions. *)
Definition completed_with_captions (p : CaptionPostProcessor)
    : list CaptionWindow :=
  filter (fun w => captions w <> []) (objects (heap p) (completed_windows p)).

(** What holds, beyond [wf], of a processor the capture loop has run on:
    the windows were created in timeline order and none is lost, and each
    caption lies in the range of the window that holds it. *)
Record sound (p : CaptionPostProcessor) : Prop := {
  sound_wf : wf p;
  sound_linear : timeline_addrs p = seq 0 (length (heap p));
  sound_members : forall a w c,
    heap p !! a = Some w -> c ∈ captions w -> in_window w c = true
}.

(** The completed windows that hold captions and whose range
    [get_timestamp_range] can format. *)
Definition prompted (E : Externals) (p : CaptionPostProcessor)
    : list CaptionWindow :=
  filter (fun w => captions w <> [] /\ range_error E w = None)
    (objects (heap p) (completed_windows p)).

(** The prompts sent since [base]: those of the prompted windows, in
    order of completion. *)
Definition accounted (E : Externals) (base : list string)
    (p : CaptionPostProcessor) : Prop :=
  calls p = base ++ (summary_prompt E p <$> prompted E p).

(** * More of the program *)

(** ** The live display *)

(** The list [lines] built by [get_display_text], when
    [get_timestamp_range] does not raise. *)
Definition display_lines (E : Externals) (p : CaptionPostProcessor)
    : list string :=
  ["Current: " +:+ latest_description p]
  ++ match current_object p with
     | Some w => ["Window: " +:+ get_timestamp_range E w;
                  "Captions in window: " +:+ pretty (length (captions w))]
     | None => []
     end
  ++ match last (completed_windows p) with
     | Some a =>
         match heap p !! a with
         | Some latest_summary =>
             if summarized latest_summary
             then ["Latest Summary: " +:+ summary latest_summary]
             else []
         | None => []
         end
     | None => []
     end.

(** [get_display_text]: the text returned ([inr]), or the message of the
    exception that [get_timestamp_range] raises on the current window
    ([inl]). *)
Definition get_display_text (E : Externals) (p : CaptionPostProcessor)
    : string + string :=
  match current_object p with
  | Some w =>
      match range_error E w with
      | Some e => inl e
      | None => inr (Py.join Py.newline (display_lines E p))
      end
  | None => inr (Py.join Py.newline (display_lines E p))
  end.

(** [s.split(sep)] for a one-character separator. *)
Fixpoint py_split (sep : ascii) (s : string) : list string :=
  match s with
  | EmptyString => [""]
  | String c s' =>
      if Ascii.eqb c sep then "" :: py_split sep s'
      else match py_split sep s' with
           | x :: rest => String c x :: rest
           | [] => [String c ""]
           end
  end.

(** The calls that draw on the frame. *)
Inductive Draw : Type :=
| Rectangle (x1 y1 x2 y2 : Z)
| PutText (text : string) (x y : Z).

(** The loop of [capture_and_display] over the lines to show, from
    vertical offset [y_offset]; [text_width] is the width given by
    [cv2.getTextSize]. *)
Fixpoint overlay_lines (text_width : string -> Z) (lines : list string)
    (y_offset : Z) : list Draw :=
  match lines with
  | [] => []
  | line :: rest =>
      if String.eqb (Py.strip line) "" then overlay_lines text_width rest y_offset
      else Rectangle 5 (y_offset - 20) (text_width (Py.strip line) + 10)
                     (y_offset + 5)
           :: PutText (Py.strip line) 10 y_offset
           :: overlay_lines text_width rest (y_offset + 25)
  end.

(** The drawing calls of the loop over the display text that
    [get_display_text] returned: its first eight lines, from
    [y_offset = 30].  The status line, drawn after the loop, is left
    out. *)
Definition overlay (text_width : string -> Z) (display_text : string)
    : list Draw :=
  overlay_lines text_width
    (take 8 (py_split (ascii_of_nat 10) display_text)) 30.

(** The texts among a list of drawing calls, with their positions. *)
Definition texts (ds : list Draw) : list (string * Z * Z) :=
  omap (fun d => match d with
                 | PutText t x y => Some (t, x, y)
                 | Rectangle _ _ _ _ => None
                 end) ds.

(** ** Frame management *)

(** The fields [frame_count], [last_frame_time] and [frame_interval]. *)
Record FrameClock : Type := {
  frame_count : Z;
  last_frame_time : float;
  frame_interval : float
}.

(** The fields as [__init__] sets them. *)
Definition FrameClock_init : FrameClock :=
  {| frame_count := 0; last_frame_time := 0; frame_interval := 0.5 |}.

(** [current_time - self.last_frame_time >= self.frame_interval] *)
Definition frame_due (current_time : float) (c : FrameClock) : bool :=
  (frame_interval c <=? current_time - last_frame_time c)%float.

(** The frame-analysis part of one loop iteration at [current_time]:
    the clock afterwards, and whether an analysis thread was started. *)
Definition schedule_analysis (current_time : float) (c : FrameClock)
    : FrameClock * bool :=
  if frame_due current_time c
  then ({| frame_count := frame_count c + 1;
           last_frame_time := current_time;
           frame_interval := frame_interval c |}, true)
  else (c, false).

(** The loop iterations at the given clock readings: the clock
    afterwards and the readings at which an analysis was started. *)
Fixpoint schedule_all (readings : list float) (c : FrameClock)
    : FrameClock * list float :=
  match readings with
  | [] => (c, [])
  | t :: rest =>
      let (c1, started) := schedule_analysis t c in
      let (c2, later) := schedule_all rest c1 in
      (c2, if started then t :: later else later)
  end.

(** Consecutive elements of a list of clock readings are at least
    [interval] apart, as the subtraction of floats measures it. *)
Fixpoint spaced (interval : float) (ts : list float) : Prop :=
  match ts with
  | t1 :: ((t2 :: _) as rest) =>
      (interval <=? t2 - t1)%float = true /\ spaced interval rest
  | _ => True
  end.

(** ** Frame analysis *)

(** OpenCV and the vision call of the model, for frames of type [Frame]. *)
Record Vision (Frame : Type) : Type := {
  (** [cv2.resize] to 640x360 and [cv2.imencode] as JPEG of quality 85:
      the exception message or the bytes *)
  encode_jpeg : Frame -> string + string;
  (** [model.generate_content([prompt, image_part]).text] for the model
      with the given handle *)
  describe : string -> string -> string -> GenResult
}.

Arguments encode_jpeg {Frame}.
Arguments describe {Frame}.

Definition analysis_prompt : string :=
  "Describe what you see in this image in one concise sentence. Focus on the main objects, people, activities, and environment. Be brief but informative.".

(** [analyze_frame] *)
Definition analyze_frame {Frame : Type} (V : Vision Frame)
    (p : CaptionPostProcessor) (frame : Frame) : string :=
  match model p with
  | None => "Gemini not initialized"
  | Some m =>
      match encode_jpeg V frame with
      | inl e => "Analysis error: " +:+ e
      | inr image_data =>
          match describe V m analysis_prompt image_data with
          | GenText t =>
              if String.eqb t "" then "No description available"
              else Py.strip t
          | GenRaise e => "Analysis error: " +:+ e
          end
      end
  end.

(** The function [analyze] run by an analysis thread, which reads the
    clock as [ts] once the description is there.  The call of the model
    in [analyze_frame] carries an image and is not recorded in [calls]. *)
Definition analyze {Frame : Type} (V : Vision Frame) (frame : Frame)
    (ts : float) (p : CaptionPostProcessor) : CaptionPostProcessor :=
  ingest (analyze_frame V p frame) ts p.

(** ** main *)

(** The parsed command line; [None] for an option that is not given. *)
Record Args : Type := {
  arg_api_key : option string;
  arg_camera : option Z;
  arg_window_duration : option float;
  arg_interval : option float
}.

(** The names [main] imports from [config]. *)
Record Config : Type := {
  GEMINI_API_KEY : string;
  DEFAULT_CAMERA_INDEX : Z;
  DEFAULT_FRAME_INTERVAL : float
}.

(** [config.GEMINI_API_KEY] for the environment [env] that [load_dotenv]
    leaves: [os.getenv("GEMINI_API_KEY", "YOUR_API_KEY_HERE")]. *)
Definition config_api_key (env : gmap string string) : string :=
  default "YOUR_API_KEY_HERE" (env !! "GEMINI_API_KEY").

(** [args.api_key or GEMINI_API_KEY]: an empty string is false. *)
Definition resolve_api_key (cfg : Config) (args : Args) : string :=
  match arg_api_key args with
  | Some k => if String.eqb k "" then GEMINI_API_KEY cfg else k
  | None => GEMINI_API_KEY cfg
  end.

Definition resolve_camera (cfg : Config) (args : Args) : Z :=
  default (DEFAULT_CAMERA_INDEX cfg) (arg_camera args).

Definition resolve_interval (cfg : Config) (args : Args) : float :=
  default (DEFAULT_FRAME_INTERVAL cfg) (arg_interval args).

(** [--window-duration] has the default 30.0. *)
Definition resolve_window_duration (args : Args) : float :=
  default 30%float (arg_window_duration args).

(** [str(e)] *)
Definition exn_str (e : Py.exn) : string :=
  match e with
  | Py.AttributeError msg => msg
  | Py.Exception msg => msg
  end.

(** What befalls a call of [main] from outside. *)
Inductive Course : Type :=
(** no interrupt, and [cleanup] returns *)
| Undisturbed
(** [cleanup], in the [finally] clause of [capture_and_display], raises
    an [Exception] with this message, after it has set [running] *)
| CleanupRaises (msg : string)
(** a [KeyboardInterrupt] arrives before [main] enters its [try] block *)
| InterruptBeforeRun
(** a [KeyboardInterrupt] arrives during [processor.run()] *)
| InterruptInRun.

(** How [main] ends: with a [KeyboardInterrupt] that leaves it, without
    constructing a processor, with an exception of the constructor that
    leaves it, or normally after [run]: after an interrupt in [run], or
    else with the processor and the [frame_interval] it set on it.
    [printed] are the lines of [main]'s own calls of [print] (and the
    report of [run]), not those the methods of the processor print. *)
Inductive MainOutcome : Type :=
| MainInterrupted
| MainRefused (printed : list string)
| MainUncaught (e : Py.exn)
| MainShutDown (printed : list string)
| MainReturned (printed : list string) (p : CaptionPostProcessor)
    (frame_interval : float).

Definition main (E : Externals) (cfg : Config) (args : Args)
    (evs : list Event) (course : Course) : MainOutcome :=
  let api_key := resolve_api_key cfg args in
  let camera_index := resolve_camera cfg args in
  let frame_interval := resolve_interval cfg args in
  let window_duration := resolve_window_duration args in
  match course with
  | InterruptBeforeRun => MainInterrupted
  | _ =>
      if String.eqb api_key "YOUR_API_KEY_HERE" then
        MainRefused
          ["❌ Please set your Gemini API key in the .env file or use --api-key";
           "Create a .env file with: GEMINI_API_KEY=your_actual_api_key_here";
           "Or get your API key from: https://aistudio.google.com/app/apikey"]
      else
        match CaptionPostProcessor_init E api_key camera_index window_duration
        with
        | inl e => MainUncaught e
        | inr processor =>
            let banner :=
              ["Caption Post-Processor for Gemini Live API";
               Py.repeat_str "=" 60;
               "Camera: " +:+ pretty camera_index;
               "Window duration: " +:+ format_float E window_duration +:+ "s";
               "Frame interval: " +:+ format_float E frame_interval +:+ "s";
               Py.repeat_str "=" 60] in
            match course with
            | InterruptInRun =>
                MainShutDown (banner ++ [Py.newline +:+ "Shutting down..."])
            | CleanupRaises msg =>
                MainReturned (banner ++ ["Error: " +:+ msg])
                  (capture_and_display E evs (with_running true processor))
                  frame_interval
            | _ =>
                match run E evs processor with
                | Returned p report =>
                    MainReturned (banner ++ report) p frame_interval
                | Raised e p =>
                    MainReturned (banner ++ ["Error: " +:+ exn_str e]) p
                      frame_interval
                end
            end
        end
  end.

(** ** Stubs of model lists *)

(** Whether the probe of [initialize_gemini] accepts the model [name]
    after the earlier prompts [log]. *)
Definition usable (E : Externals) (log : list string) (name : string) : bool :=
  match GenerativeModel E name with
  | inl _ => false
  | inr m =>
      match generate_content E m log "Hello" with
      | GenText t => negb (String.eqb t "")
      | GenRaise _ => false
      end
  end.

(** Whether [genai.GenerativeModel(name)] returns a model. *)
Definition constructible (E : Externals) (name : string) : bool :=
  match GenerativeModel E name with
  | inl _ => false
  | inr _ => true
  end.

Module Stubs.

(** Only the experimental model exists; it answers. *)
Definition experimental_only : Externals :=
  {| GenerativeModel := fun name =>
       if String.eqb name "gemini-2.5-flash" then inl "404 model not found"
       else inr name;
     generate_content := fun m _ _ =>
       if String.eqb m "gemini-2.0-flash-exp" then GenText "Hello!"
       else if String.eqb m "gemini-2.0-flash" then GenText ""
       else GenRaise "403 permission denied";
     fromtimestamp_error := Py.fromtimestamp_error;
     strftime_HMS := fun _ => "00:00:00";
     format_float := fun _ => "30.0" |}.

(** No model answers. *)
Definition offline : Externals :=
  {| GenerativeModel := inr;
     generate_content := fun _ _ _ => GenRaise "503 unavailable";
     fromtimestamp_error := Py.fromtimestamp_error;
     strftime_HMS := fun _ => "00:00:00";
     format_float := fun _ => "30.0" |}.

(** A camera whose frames are their own JPEG bytes, and a vision call
    that times out. *)
Definition blind : Vision string :=
  {| encode_jpeg := inr;
     describe := fun _ _ _ => GenRaise "504 Deadline Exceeded" |}.

End Stubs.

(** The descriptions the analysis threads produced, in arrival order. *)
Definition offered_descriptions (evs : list Event) : list string :=
  omap (fun ev => match ev with
                  | Ingest description _ => Some description
                  | Tick _ => None
                  end) evs.


Definition no_model_message : string := "Could not initialize any Gemini model".

Definition no_attribute_message : string :=
  "'CaptionPostProcessor' object has no attribute 'process_captions'".

(** * The shared state, write by write *)

(** [window.summary = s] and [window.summarized = True] are two
    assignments. *)
Definition with_summary (s : string) (w : CaptionWindow) : CaptionWindow :=
  {| start_time := start_time w; end_time := end_time w; captions := captions w;
     summary := s; summarized := summarized w |}.

Definition with_summarized (b : bool) (w : CaptionWindow) : CaptionWindow :=
  {| start_time := start_time w; end_time := end_time w; captions := captions w;
     summary := summary w; summarized := b |}.

(** Every assignment to the windows and to the fields of the processor
    that the file contains, with the values it may hold when it runs.  The
    analysis threads and the main thread share the processor without a
    lock; whatever the interleaving, what happens to the shared state is a
    sequence of these writes. *)
Inductive Write : Type :=
(** line 308: [self.latest_description = description] *)
| WLatest (description : string)
(** lines 206 and 312: [self.current_window = CaptionWindow(start, ...)] *)
| WNewCurrent (start : float)
(** line 315, into line 41: [add_caption] on the window object at [a] *)
| WAddCaption (a : addr) (c : CaptionEntry)
(** lines 190, 211, 251 and 261: [window.summary = s] *)
| WSummary (a : addr) (s : string)
(** lines 191, 212, 252 and 262: [window.summarized = True] *)
| WSummarized (a : addr)
(** lines 193 and 397: [self.completed_windows.append(window)] *)
| WCompleted (a : addr)
(** lines 113 and 250: a prompt goes to [generate_content] *)
| WCall (prompt : string)
(** lines 361 and 388: [self.running = b] *)
| WRunning (b : bool).

Definition apply_write (p : CaptionPostProcessor) (x : Write)
    : CaptionPostProcessor :=
  match x with
  | WLatest description => with_latest_description description p
  | WNewCurrent start => new_current_window start p
  | WAddCaption a c =>
      match heap p !! a with
      | Some w => store a (fst (add_caption w c)) p
      | None => p
      end
  | WSummary a s =>
      match heap p !! a with
      | Some w => store a (with_summary s w) p
      | None => p
      end
  | WSummarized a =>
      match heap p !! a with
      | Some w => store a (with_summarized true w) p
      | None => p
      end
  | WCompleted a => with_completed_windows (completed_windows p ++ [a]) p
  | WCall prompt => with_calls (calls p ++ [prompt]) p
  | WRunning b => with_running b p
  end.

Definition apply_writes (p : CaptionPostProcessor) (xs : list Write)
    : CaptionPostProcessor :=
  fold_left apply_write xs p.

(** * The analysis threads, step by step *)

(** Where a thread stands in the tail of [analyze], lines 306 to 315.  Its
    caption is its own; each point is before one access to the shared
    processor. *)
Inductive ThreadPoint : Type :=
(** before [self.latest_description = description] *)
| AtLatest
(** before the test [self.current_window is None] *)
| AtTest
(** the test saw [None]: before [self.current_window = CaptionWindow(...)] *)
| AtCreate
(** before reading [self.current_window] for the call of [add_caption] *)
| AtLoad
(** holding the window object it read: before [add_caption] runs on it *)
| AtAdd (a : addr)
| Finished.

Record Thread : Type := {
  th_description : string;
  th_timestamp : float;
  th_point : ThreadPoint
}.

Definition at_point (t : Thread) (pt : ThreadPoint) : Thread :=
  {| th_description := th_description t; th_timestamp := th_timestamp t;
     th_point := pt |}.

(** One step of a thread: the thread and the processor afterwards. *)
Definition thread_step (t : Thread) (p : CaptionPostProcessor)
    : Thread * CaptionPostProcessor :=
  match th_point t with
  | AtLatest =>
      (at_point t AtTest, with_latest_description (th_description t) p)
  | AtTest =>
      match current_window p with
      | None => (at_point t AtCreate, p)
      | Some _ => (at_point t AtLoad, p)
      end
  | AtCreate => (at_point t AtLoad, new_current_window (th_timestamp t) p)
  | AtLoad =>
      match current_window p with
      | Some a => (at_point t (AtAdd a), p)
      | None => (at_point t Finished, p)
      end
  | AtAdd a =>
      (at_point t Finished,
       match heap p !! a with
       | Some w =>
           store a (fst (add_caption w
                           (CaptionEntry_init (th_description t)
                              (th_timestamp t)))) p
       | None => p
       end)
  | Finished => (t, p)
  end.

(** The processor and the analysis threads started so far. *)
Record System : Type := {
  proc : CaptionPostProcessor;
  threads : list Thread
}.

(** What happens next. *)
Inductive Sched : Type :=
(** an analysis thread has its description and clock reading (line 304) *)
| Spawn (description : string) (ts : float)
(** thread number [i] takes its next step *)
| Run (i : nat)
(** the main thread runs [check_window_completion], here without a thread
    running in between *)
| MainTick (now : float).

Definition sys_step (E : Externals) (s : System) (x : Sched) : System :=
  match x with
  | Spawn description ts =>
      {| proc := proc s;
         threads := threads s ++ [{| th_description := description;
                                     th_timestamp := ts;
                                     th_point := AtLatest |}] |}
  | Run i =>
      match threads s !! i with
      | Some t =>
          let (t', p') := thread_step t (proc s) in
          {| proc := p'; threads := <[i := t']> (threads s) |}
      | None => s
      end
  | MainTick now =>
      {| proc := check_window_completion E now (proc s);
         threads := threads s |}
  end.

Definition run_schedule (E : Externals) (s : System) (xs : list Sched)
    : System :=
  fold_left (sys_step E) xs s.

(** A thread that runs from its start to its end without interruption. *)
Definition run_thread (description : string) (ts : float)
    (p : CaptionPostProcessor) : CaptionPostProcessor :=
  let t0 := {| th_description := description; th_timestamp := ts;
               th_point := AtLatest |} in
  let (t1, p1) := thread_step t0 p in
  let (t2, p2) := thread_step t1 p1 in
  let (t3, p3) := thread_step t2 p2 in
  let (t4, p4) := thread_step t3 p3 in
  let (t5, p5) := thread_step t4 p4 in
  snd (thread_step t5 p5).

(** [w'] is a later state of the window object [w]: the same range, the
    captions of [w] still there, first and in order, and summarised if
    [w] was. *)
Definition later_state (w w' : CaptionWindow) : Prop :=
  start_time w' = start_time w
  /\ end_time w' = end_time w
  /\ captions w `prefix_of` captions w'
  /\ (summarized w = true -> summarized w' = true).

(** [p'] is [p] grown: the window objects of [p] are still in the store,
    at their addresses and in later states, and the completed windows of
    [p] are the first of those of [p']. *)
Definition grown (p p' : CaptionPostProcessor) : Prop :=
  (range <$> heap p) `prefix_of` (range <$> heap p')
  /\ completed_windows p `prefix_of` completed_windows p'
  /\ forall a w, heap p !! a = Some w ->
       exists w', heap p' !! a = Some w' /\ later_state w w'.


(** * Properties *)

(** ** Float comparisons *)

Lemma SFcompare_Lt_Gt x y : SFcompare x y = Some Lt -> SFcompare y x = Some Gt.
Proof.
  destruct x as [sx|sx| |sx mx ex], y as [sy|sy| |sy my ey]; simpl;
    try discriminate;
    try (destruct sx; discriminate || reflexivity);
    try (destruct sy; discriminate || reflexivity);
    try (destruct sx, sy; discriminate || reflexivity).
  intros H. injection H as H. f_equal.
  change (PosDef.Pos.compare_cont Eq my mx)
    with (PosDef.Pos.compare_cont (CompOpp Eq) my mx).
  rewrite <- (Pos.compare_cont_antisym mx my Eq).
  rewrite (Z.compare_antisym ex ey).
  destruct sx, sy; try discriminate; try reflexivity;
    destruct (ex ?= ey)%Z; simpl in *; try discriminate; try reflexivity;
    rewrite H; reflexivity.
Qed.

(** [x < y] excludes [y <= x], also with infinities, zeros and NaN. *)
Lemma float_ltb_not_leb (x y : float) :
  (x <? y)%float = true -> (y <=? x)%float = false.
Proof.
  rewrite ltb_spec, leb_spec. unfold SFltb, SFleb. intros H.
  destruct (SFcompare (Prim2SF x) (Prim2SF y)) as [[]|] eqn:Ec;
    try discriminate.
  rewrite (SFcompare_Lt_Gt _ _ Ec). reflexivity.
Qed.

(** No timestamp lies in a window and in one that starts at its end. *)
Lemma adjacent_windows_disjoint w1 w2 c :
  start_time w2 = end_time w1 -> in_window w1 c = true -> in_window w2 c = false.
Proof.
  unfold in_window. intros -> H.
  apply andb_true_iff in H as [_ H].
  rewrite (float_ltb_not_leb _ _ H). reflexivity.
Qed.

(** ** Windows *)

Lemma range_set_summary s w : range (set_summary s w) = range w.
Proof. reflexivity. Qed.

Lemma range_add_caption w c : range (fst (add_caption w c)) = range w.
Proof. unfold add_caption. destruct (in_window w c); reflexivity. Qed.

Lemma summarized_add_caption w c :
  summarized (fst (add_caption w c)) = summarized w.
Proof. unfold add_caption. destruct (in_window w c); reflexivity. Qed.

Lemma contiguous_nil : contiguous [].
Proof. intros k w1 w2 H. rewrite lookup_nil in H. discriminate. Qed.

Lemma contiguous_singleton w : contiguous [w].
Proof.
  intros k w1 w2 _ H. rewrite lookup_cons in H. simpl in H.
  rewrite lookup_nil in H. discriminate.
Qed.

Lemma contiguous_snoc ws w1 w2 :
  contiguous (ws ++ [w1]) ->
  start_time w2 = end_time w1 ->
  contiguous (ws ++ [w1; w2]).
Proof.
  intros Hc Hm k x y Hx Hy.
  destruct (decide (S k < length (ws ++ [w1]))) as [Hlt | Hge].
  - apply (Hc k x y).
    + change (ws ++ [w1; w2]) with (ws ++ [w1] ++ [w2]) in Hx.
      rewrite app_assoc, lookup_app_l in Hx by lia. exact Hx.
    + change (ws ++ [w1; w2]) with (ws ++ [w1] ++ [w2]) in Hy.
      rewrite app_assoc, lookup_app_l in Hy by exact Hlt. exact Hy.
  - rewrite length_app in Hge. simpl in Hge.
    assert (Hk : k = length ws).
    { apply lookup_lt_Some in Hy. rewrite length_app in Hy. simpl in Hy. lia. }
    subst k.
    rewrite lookup_app_r in Hx by lia.
    rewrite lookup_app_r in Hy by lia.
    replace (length ws - length ws) with 0 in Hx by lia.
    replace (S (length ws) - length ws) with 1 in Hy by lia.
    simpl in Hx, Hy. congruence.
Qed.

Lemma contiguous_ranges ws ws' :
  range <$> ws = range <$> ws' -> contiguous ws -> contiguous ws'.
Proof.
  intros Heq Hc k x y Hx Hy.
  assert (Hx' : (range <$> ws) !! k = Some (range x))
    by (rewrite Heq, list_lookup_fmap, Hx; reflexivity).
  assert (Hy' : (range <$> ws) !! S k = Some (range y))
    by (rewrite Heq, list_lookup_fmap, Hy; reflexivity).
  rewrite list_lookup_fmap in Hx', Hy'.
  destruct (ws !! k) as [x0|] eqn:Ex; [|discriminate].
  destruct (ws !! S k) as [y0|] eqn:Ey; [|discriminate].
  simpl in Hx', Hy'. unfold range in Hx', Hy'.
  specialize (Hc k x0 y0 Ex Ey). congruence.
Qed.

(** ** The object store *)

Lemma objects_cons h a l :
  objects h (a :: l) =
  match h !! a with Some w => w :: objects h l | None => objects h l end.
Proof. reflexivity. Qed.

Lemma objects_app h l1 l2 : objects h (l1 ++ l2) = objects h l1 ++ objects h l2.
Proof. unfold objects. apply omap_app. Qed.

(** Allocation leaves the objects of valid addresses alone. *)
Lemma objects_alloc h x l :
  (forall a, a ∈ l -> is_Some (h !! a)) ->
  objects (h ++ [x]) l = objects h l.
Proof.
  induction l as [|a l IH]; intros Hv; [reflexivity|].
  rewrite !objects_cons.
  destruct (Hv a) as [w Hw]; [left|].
  rewrite lookup_app_l by (eapply lookup_lt_Some; exact Hw).
  rewrite Hw, IH; [reflexivity|].
  intros b Hb. apply Hv. right. exact Hb.
Qed.

(** A mutation that keeps the range of the object keeps all ranges. *)
Lemma objects_store_ranges h a w w' l :
  h !! a = Some w -> range w' = range w ->
  range <$> objects (<[a := w']> h) l = range <$> objects h l.
Proof.
  intros Ha Hr.
  induction l as [|b l IH]; [reflexivity|].
  rewrite !objects_cons.
  destruct (decide (a = b)) as [<- | Hne].
  - rewrite list_lookup_insert_eq by (eapply lookup_lt_Some; exact Ha).
    rewrite Ha, !fmap_cons, IH, Hr. reflexivity.
  - rewrite list_lookup_insert_ne by exact Hne.
    destruct (h !! b); rewrite ?fmap_cons, IH; reflexivity.
Qed.

Lemma objects_valid_length h l :
  (forall a, a ∈ l -> is_Some (h !! a)) -> length (objects h l) = length l.
Proof.
  induction l as [|a l IH]; intros Hv; [reflexivity|].
  rewrite objects_cons.
  destruct (Hv a) as [w Hw]; [left|]. rewrite Hw. simpl.
  rewrite IH; [reflexivity|]. intros b Hb. apply Hv. right. exact Hb.
Qed.

(** ** What each operation does to the processor *)

Section Operations.

Variable E : Externals.

Lemma summarize_window_spec a w p :
  heap p !! a = Some w -> summarised_at a w p (summarize_window E a p).
Proof.
  intros Ha. unfold summarize_window. rewrite Ha.
  destruct (model p) as [m|] eqn:Em.
  - destruct (captions w) as [|c cs] eqn:Ec.
    + eexists. repeat split; simpl; eauto.
    + destruct (range_error E w);
        [|destruct (generate_content E m (calls p) (summary_prompt E p w))];
        eexists; repeat split; simpl; eauto.
  - eexists. repeat split; simpl; eauto.
Qed.

Lemma complete_current_window_spec a w p :
  current_window p = Some a -> heap p !! a = Some w ->
  exists p1,
    summarised_at a w p p1
    /\ complete_current_window E p
       = with_completed_windows (completed_windows p1 ++ [a]) p1.
Proof.
  intros Hc Ha. unfold complete_current_window. rewrite Hc, Ha.
  destruct (captions w) as [|c cs] eqn:Ec.
  - eexists. split; [|reflexivity].
    eexists. repeat split; simpl; eauto.
  - eexists. split; [|reflexivity]. apply summarize_window_spec. exact Ha.
Qed.

(** A tick on an expired current window: the window is summarised and
    appended, and a new window that starts at its end becomes current. *)
Lemma tick_expired a w now p :
  current_window p = Some a -> heap p !! a = Some w ->
  is_complete w now = true ->
  exists s,
    let p' := check_window_completion E now p in
    heap p' = <[a := set_summary s w]> (heap p)
              ++ [CaptionWindow_init (end_time w) (window_duration p)]
    /\ completed_windows p' = completed_windows p ++ [a]
    /\ current_window p' = Some (length (heap p))
    /\ window_duration p' = window_duration p
    /\ model p' = model p.
Proof.
  intros Hc Ha Hx.
  destruct (complete_current_window_spec a w p Hc Ha)
    as (p1 & (s & Hh & Hcomp & Hcur & Hd & Hm) & Heq).
  exists s. unfold check_window_completion, current_object.
  rewrite Hc, Ha, Hx, Heq. simpl.
  rewrite Hcur, Hc, Hh.
  rewrite list_lookup_insert_eq by (eapply lookup_lt_Some; exact Ha).
  simpl. rewrite Hh, Hcomp, Hd, Hm, length_insert. repeat split.
Qed.

(** A tick changes nothing unless the current window is expired. *)
Lemma tick_idle now p :
  (forall w, current_object p = Some w -> is_complete w now = false) ->
  check_window_completion E now p = p.
Proof.
  intros H. unfold check_window_completion.
  destruct (current_object p) as [w|]; [|reflexivity].
  rewrite (H w eq_refl). reflexivity.
Qed.

(** The two lemmas above cover every call. *)
Lemma tick_cases now p :
  let p' := check_window_completion E now p in
  match current_object p with
  | Some w =>
      if is_complete w now then
        exists a s,
          current_window p = Some a
          /\ completed_windows p' = completed_windows p ++ [a]
          /\ heap p' = <[a := set_summary s w]> (heap p)
                       ++ [CaptionWindow_init (end_time w) (window_duration p)]
          /\ current_window p' = Some (length (heap p))
      else p' = p
  | None => p' = p
  end.
Proof.
  simpl. destruct (current_object p) as [w|] eqn:Ho.
  - destruct (is_complete w now) eqn:Hx.
    + unfold current_object in Ho.
      destruct (current_window p) as [a|] eqn:Hc; [|discriminate].
      destruct (tick_expired a w now p Hc Ho Hx) as (s & Hh & Hl & Hc' & _).
      exists a, s. repeat split; assumption.
    + apply tick_idle. intros w' Hw'. congruence.
  - apply tick_idle. intros w' Hw'. congruence.
Qed.

(** The first ingest creates the first window, which starts at the
    caption's timestamp. *)
Lemma ingest_first description ts p :
  current_window p = None ->
  let p' := ingest description ts p in
  let w0 := CaptionWindow_init ts (window_duration p) in
  heap p' = heap p ++ [fst (add_caption w0 (CaptionEntry_init description ts))]
  /\ completed_windows p' = completed_windows p
  /\ current_window p' = Some (length (heap p))
  /\ window_duration p' = window_duration p
  /\ model p' = model p.
Proof.
  intros Hc. unfold ingest. simpl. rewrite Hc. simpl.
  rewrite lookup_app_r by lia.
  replace (length (heap p) - length (heap p)) with 0 by lia. simpl.
  repeat split.
  rewrite insert_app_r_alt by lia.
  replace (length (heap p) - length (heap p)) with 0 by lia. reflexivity.
Qed.

(** A later ingest offers the caption to the current window. *)
Lemma ingest_current description ts a w p :
  current_window p = Some a -> heap p !! a = Some w ->
  let p' := ingest description ts p in
  heap p' = <[a := fst (add_caption w (CaptionEntry_init description ts))]> (heap p)
  /\ completed_windows p' = completed_windows p
  /\ current_window p' = Some a
  /\ window_duration p' = window_duration p
  /\ model p' = model p.
Proof.
  intros Hc Ha. unfold ingest. simpl. rewrite Hc. simpl. rewrite Hc, Ha.
  simpl. repeat split; assumption.
Qed.

End Operations.

(** ** Invariants of the capture loop *)

Lemma timeline_addrs_current p a :
  current_window p = Some a -> timeline_addrs p = completed_windows p ++ [a].
Proof. intros H. unfold timeline_addrs. rewrite H. reflexivity. Qed.

Lemma timeline_addrs_none p :
  current_window p = None -> timeline_addrs p = completed_windows p.
Proof. intros H. unfold timeline_addrs. rewrite H. apply app_nil_r. Qed.

Lemma objects_single h a w : h !! a = Some w -> objects h [a] = [w].
Proof. intros H. rewrite objects_cons, H. reflexivity. Qed.

Lemma wf_current_not_completed p a :
  wf p -> current_window p = Some a -> a ∉ completed_windows p.
Proof.
  intros Hwf Hc Hin.
  destruct (wf_current p Hwf a Hc) as (w & Hw & Hs).
  destruct (wf_completed p Hwf a Hin) as (w' & Hw' & Hs').
  congruence.
Qed.

Section Invariants.

Variable E : Externals.

Lemma try_models_windows names p p' :
  try_models E names p = inr p' ->
  current_window p' = current_window p
  /\ completed_windows p' = completed_windows p
  /\ heap p' = heap p
  /\ window_duration p' = window_duration p.
Proof.
  revert p. induction names as [|n names IH]; intros p H; simpl in H.
  - discriminate.
  - destruct (GenerativeModel E n) as [e|m]; [exact (IH _ H)|].
    destruct (generate_content E m _ "Hello") as [t|e].
    + destruct (String.eqb t "").
      * destruct (IH _ H) as (-> & -> & -> & ->). repeat split.
      * injection H as <-. repeat split.
    + destruct (IH _ H) as (-> & -> & -> & ->). repeat split.
Qed.

Lemma init_windows key camera d p :
  CaptionPostProcessor_init E key camera d = inr p ->
  current_window p = None /\ completed_windows p = [] /\ heap p = []
  /\ window_duration p = d.
Proof.
  intros H. apply try_models_windows in H. exact H.
Qed.

Lemma wf_init key camera d p :
  CaptionPostProcessor_init E key camera d = inr p -> wf p.
Proof.
  intros H. destruct (init_windows _ _ _ _ H) as (Hc & Hl & Hh & _).
  split.
  - intros a Ha. congruence.
  - intros a Ha. rewrite Hl in Ha. inversion Ha.
  - intros _. exact Hl.
  - unfold timeline. rewrite (timeline_addrs_none p Hc), Hl.
    apply contiguous_nil.
Qed.

Lemma wf_ingest description ts p : wf p -> wf (ingest description ts p).
Proof.
  intros Hwf. destruct (current_window p) as [a|] eqn:Hc.
  - destruct (wf_current p Hwf a Hc) as (w & Hw & Hs).
    destruct (ingest_current description ts a w p Hc Hw)
      as (Hh & Hl & Hc' & _).
    assert (Hlt : a < length (heap p)) by (eapply lookup_lt_Some; exact Hw).
    split.
    + intros b Hb. rewrite Hc' in Hb. injection Hb as <-.
      eexists. rewrite Hh, list_lookup_insert_eq by exact Hlt.
      split; [reflexivity|]. rewrite summarized_add_caption. exact Hs.
    + intros b Hb. rewrite Hl in Hb.
      destruct (wf_completed p Hwf b Hb) as (wb & Hwb & Hsb).
      exists wb. split; [|exact Hsb].
      rewrite Hh, list_lookup_insert_ne; [exact Hwb|].
      intros ->. congruence.
    + rewrite Hc'. discriminate.
    + apply (contiguous_ranges (timeline p)); [|apply (wf_contiguous p Hwf)].
      unfold timeline.
      rewrite (timeline_addrs_current _ a Hc'), (timeline_addrs_current p a Hc).
      rewrite Hh, Hl.
      symmetry. eapply objects_store_ranges; [exact Hw|].
      apply range_add_caption.
  - destruct (ingest_first description ts p Hc) as (Hh & Hl & Hc' & _).
    pose proof (wf_origin p Hwf Hc) as Hnil.
    split.
    + intros b Hb. rewrite Hc' in Hb. injection Hb as <-.
      eexists. rewrite Hh, lookup_app_r by lia.
      replace (length (heap p) - length (heap p)) with 0 by lia.
      split; [reflexivity|]. rewrite summarized_add_caption. reflexivity.
    + intros b Hb. rewrite Hl, Hnil in Hb. inversion Hb.
    + rewrite Hc'. discriminate.
    + unfold timeline.
      rewrite (timeline_addrs_current _ _ Hc'), Hl, Hnil, app_nil_l.
      erewrite objects_single; [apply contiguous_singleton|].
      rewrite Hh, lookup_app_r by lia.
      replace (length (heap p) - length (heap p)) with 0 by lia.
      reflexivity.
Qed.

Lemma wf_tick now p : wf p -> wf (check_window_completion E now p).
Proof.
  intros Hwf.
  destruct (current_window p) as [a|] eqn:Hc.
  2:{ rewrite tick_idle; [exact Hwf|].
      unfold current_object. rewrite Hc. discriminate. }
  destruct (wf_current p Hwf a Hc) as (w & Hw & Hs).
  destruct (is_complete w now) eqn:Hx.
  2:{ rewrite tick_idle; [exact Hwf|].
      unfold current_object. rewrite Hc, Hw. intros ? [= <-]. exact Hx. }
  destruct (tick_expired E a w now p Hc Hw Hx) as (s & Hh & Hl & Hc' & _).
  simpl in Hh, Hl, Hc'.
  assert (Hlt : a < length (heap p)) by (eapply lookup_lt_Some; exact Hw).
  assert (Hsealed : forall b, b ∈ completed_windows p ++ [a] ->
            exists wb, (<[a := set_summary s w]> (heap p)) !! b = Some wb
                       /\ summarized wb = true).
  { intros b Hb. apply elem_of_app in Hb as [Hb | Hb].
    - destruct (wf_completed p Hwf b Hb) as (wb & Hwb & Hsb).
      exists wb. split; [|exact Hsb].
      rewrite list_lookup_insert_ne; [exact Hwb|]. intros ->. congruence.
    - apply list_elem_of_singleton in Hb as ->.
      eexists. rewrite list_lookup_insert_eq by exact Hlt.
      split; reflexivity. }
  split.
  - intros b Hb. rewrite Hc' in Hb. injection Hb as <-.
    eexists. rewrite Hh, lookup_app_r by (rewrite length_insert; lia).
    rewrite length_insert.
    replace (length (heap p) - length (heap p)) with 0 by lia.
    split; reflexivity.
  - intros b Hb. rewrite Hl in Hb.
    destruct (Hsealed b Hb) as (wb & Hwb & Hsb).
    exists wb. split; [|exact Hsb]. rewrite Hh.
    rewrite lookup_app_l by (eapply lookup_lt_Some; exact Hwb). exact Hwb.
  - rewrite Hc'. discriminate.
  - unfold timeline.
    rewrite (timeline_addrs_current _ _ Hc'), Hh, Hl.
    rewrite objects_app.
    rewrite objects_alloc
      by (intros b Hb; destruct (Hsealed b Hb) as (wb & Hwb & _); eauto).
    erewrite (objects_single _ (length (heap p)))
      by (rewrite lookup_app_r by (rewrite length_insert; lia);
          rewrite length_insert;
          replace (length (heap p) - length (heap p)) with 0 by lia;
          reflexivity).
    rewrite objects_app.
    rewrite (objects_single _ a (set_summary s w))
      by (apply list_lookup_insert_eq; exact Hlt).
    rewrite <- app_assoc.
    change ([set_summary s w] ++ ?l) with (set_summary s w :: l).
    apply contiguous_snoc; [|reflexivity].
    apply (contiguous_ranges (timeline p)); [|apply (wf_contiguous p Hwf)].
    unfold timeline. rewrite (timeline_addrs_current p a Hc).
    rewrite <- (objects_single (<[a := set_summary s w]> (heap p)) a
                  (set_summary s w))
      by (apply list_lookup_insert_eq; exact Hlt).
    rewrite <- objects_app. symmetry.
    eapply objects_store_ranges; [exact Hw|]. apply range_set_summary.
Qed.

Lemma wf_step p ev : wf p -> wf (step E p ev).
Proof.
  destruct ev as [description ts | now]; simpl.
  - apply wf_ingest.
  - apply wf_tick.
Qed.

Lemma wf_run_events evs p : wf p -> wf (run_events E p evs).
Proof.
  unfold run_events. revert p.
  induction evs as [|ev evs IH]; intros p Hwf; simpl; [exact Hwf|].
  apply IH, wf_step, Hwf.
Qed.

End Invariants.

(** ** Concrete runs *)

Lemma init_answering d :
  CaptionPostProcessor_init Scenario.answering "key" 0 d
  = inr (Scenario.fresh d).
Proof. reflexivity. Qed.

Lemma init_timing_out d :
  CaptionPostProcessor_init Scenario.timing_out "key" 0 d
  = inr (Scenario.fresh d).
Proof. reflexivity. Qed.

(** One caption at t=0 opens the window [0,10); nothing happens until
    the ticks at t=35.  Three ticks are needed to catch up. *)
Example three_ticks_catch_up :
  let p := run_events Scenario.answering (Scenario.fresh 10)
             [Ingest "a desk" 0%float; Tick 35; Tick 35; Tick 35] in
  Scenario.completed_ranges p = [(0, 10); (10, 20); (20, 30)]%float
  /\ Scenario.current_range p = Some (30, 40)%float
  /\ summary <$> objects (heap p) (completed_windows p)
     = ["A person sat down at the desk."; "No captions captured";
        "No captions captured"].
Proof. vm_compute. repeat split. Qed.

(** The first scenario of the specification: captions at 5, 12, 29, 31
    and 45 with 30-second windows that start at 0. *)
Example two_windows_never_merged :
  let p := run_events Scenario.answering (Scenario.fresh 30)
             [Ingest "origin" 0%float; Ingest "a" 5%float; Ingest "b" 12%float;
              Ingest "c" 29%float; Tick 30; Ingest "d" 31%float;
              Ingest "e" 45%float; Tick 59] in
  Scenario.completed_ranges p = [(0, 30)]%float
  /\ Scenario.current_range p = Some (30, 60)%float
  /\ (map timestamp ∘ captions) <$> objects (heap p) (completed_windows p)
     = [[0; 5; 12; 29]%float]
  /\ (map timestamp ∘ captions) <$> current_object p = Some [31; 45]%float.
Proof. vm_compute. repeat split. Qed.

(** ** The claims *)

(** C3.  [add_caption] returns [True] exactly when
    [start_time <= caption.timestamp < end_time]; the captions of the
    window are then the former ones followed by the caption.  Otherwise it
    returns [False] and the captions are the former ones: the window is
    as it was.  In both cases the start, the end, the summary and the flag
    [summarized] of the window are untouched.  It has no raising path: it
    is a total function into a window and a boolean. *)
Theorem add_caption_spec (w : CaptionWindow) (c : CaptionEntry) :
  (snd (add_caption w c) = true
   <-> (start_time w <=? timestamp c)%float = true
       /\ (timestamp c <? end_time w)%float = true)
  /\ (snd (add_caption w c) = true ->
      captions (fst (add_caption w c)) = captions w ++ [c])
  /\ (snd (add_caption w c) = false ->
      captions (fst (add_caption w c)) = captions w
      /\ fst (add_caption w c) = w)
  /\ start_time (fst (add_caption w c)) = start_time w
  /\ end_time (fst (add_caption w c)) = end_time w
  /\ summary (fst (add_caption w c)) = summary w
  /\ summarized (fst (add_caption w c)) = summarized w.
Proof.
  unfold add_caption, in_window.
  destruct (start_time w <=? timestamp c)%float;
    destruct (timestamp c <? end_time w)%float; simpl;
    (split; [split; [intros H; try discriminate; split; reflexivity
                    | intros [H1 H2]; try discriminate; reflexivity]|]);
    (split; [intros H; try discriminate; reflexivity|]);
    (split; [intros H; try discriminate; split; reflexivity|]);
    repeat split.
Qed.

(** C1 (counterexample).  With 10-second windows, the window [0,10) current
    and no tick before t=35, one [Tick 35] completes [0,10) only and leaves
    [10,20) current, a window that is itself expired at t=35. *)
Lemma single_tick_does_not_catch_up :
  let p := run_events Scenario.answering (Scenario.fresh 10)
             [Ingest "a desk" 0%float; Tick 35] in
  Scenario.completed_ranges p = [(0, 10)]%float
  /\ Scenario.current_range p = Some (10, 20)%float
  /\ (fun w => is_complete w 35) <$> current_object p = Some true
  /\ ~ (Scenario.completed_ranges p = [(0, 10); (10, 20); (20, 30)]%float
        /\ Scenario.current_range p = Some (30, 40)%float).
Proof.
  vm_compute. repeat split. intros [H _]. discriminate H.
Qed.

(** C1 (amended).  One call of [check_window_completion] completes at most
    one window.  When the current window is expired at [now], the call
    summarises it, appends it to the completed windows and makes current
    a new empty window that starts at its end; that new window is not
    compared with [now].  In every other case the call changes nothing.
    So catching up takes one call per elapsed window: with 10-second
    windows and [0,10) current, three ticks at t=35 complete [0,10),
    [10,20) and [20,30) in this order and leave [30,40) current. *)
Theorem tick_completes_at_most_one_window :
  (forall (E : Externals) (now : float) (p : CaptionPostProcessor),
     let p' := check_window_completion E now p in
     match current_object p with
     | Some w =>
         if is_complete w now then
           exists a s,
             current_window p = Some a
             /\ completed_windows p' = completed_windows p ++ [a]
             /\ heap p' = <[a := set_summary s w]> (heap p)
                          ++ [CaptionWindow_init (end_time w) (window_duration p)]
             /\ current_window p' = Some (length (heap p))
         else p' = p
     | None => p' = p
     end)
  /\ (let p := run_events Scenario.answering (Scenario.fresh 10)
                 [Ingest "a desk" 0%float; Tick 35; Tick 35; Tick 35] in
      Scenario.completed_ranges p = [(0, 10); (10, 20); (20, 30)]%float
      /\ Scenario.current_range p = Some (30, 40)%float).
Proof.
  split; [exact tick_cases|]. vm_compute. split; reflexivity.
Qed.

Lemma fixed_duration_store a w w' p :
  fixed_duration p -> heap p !! a = Some w -> range w' = range w ->
  forall b x, (<[a := w']> (heap p)) !! b = Some x ->
    end_time x = (start_time x + window_duration p)%float.
Proof.
  intros Hd Ha Hr b x Hb.
  apply list_lookup_insert_Some in Hb as [(-> & -> & _) | (_ & Hb)].
  - injection Hr as -> ->. apply (Hd _ _ Ha).
  - apply (Hd _ _ Hb).
Qed.

Lemma fixed_duration_alloc (h : list CaptionWindow) start d :
  (forall b x, h !! b = Some x -> end_time x = (start_time x + d)%float) ->
  forall w, range w = range (CaptionWindow_init start d) ->
  forall b x, (h ++ [w]) !! b = Some x -> end_time x = (start_time x + d)%float.
Proof.
  intros Hd w Hr b x Hb.
  apply lookup_app_Some in Hb as [Hb | (_ & Hb)].
  - apply (Hd _ _ Hb).
  - apply list_lookup_singleton_Some in Hb as (_ & ->).
    injection Hr as -> ->. reflexivity.
Qed.

Lemma fixed_duration_step E p ev :
  wf p -> fixed_duration p -> fixed_duration (step E p ev).
Proof.
  intros Hwf Hd. destruct ev as [description ts | now]; simpl.
  - destruct (current_window p) as [a|] eqn:Hc.
    + destruct (wf_current p Hwf a Hc) as (w & Hw & _).
      destruct (ingest_current description ts a w p Hc Hw)
        as (Hh & _ & _ & Hdur & _).
      intros b x. rewrite Hh, Hdur.
      apply (fixed_duration_store a w); auto using range_add_caption.
    + destruct (ingest_first description ts p Hc) as (Hh & _ & _ & Hdur & _).
      intros b x. rewrite Hh, Hdur.
      apply (fixed_duration_alloc _ ts); [exact Hd|apply range_add_caption].
  - destruct (current_window p) as [a|] eqn:Hc.
    2:{ rewrite tick_idle; [exact Hd|].
        unfold current_object. rewrite Hc. discriminate. }
    destruct (wf_current p Hwf a Hc) as (w & Hw & _).
    destruct (is_complete w now) eqn:Hx.
    2:{ rewrite tick_idle; [exact Hd|].
        unfold current_object. rewrite Hc, Hw. intros ? [= <-]. exact Hx. }
    destruct (tick_expired E a w now p Hc Hw Hx) as (s & Hh & _ & _ & Hdur & _).
    simpl in Hh, Hdur. intros b x. rewrite Hh, Hdur.
    apply (fixed_duration_alloc _ (end_time w)); [|reflexivity].
    apply (fixed_duration_store a w); auto using range_set_summary.
Qed.

Lemma step_window_duration E p ev :
  wf p -> window_duration (step E p ev) = window_duration p.
Proof.
  intros Hwf. destruct ev as [description ts | now]; simpl.
  - destruct (current_window p) as [a|] eqn:Hc.
    + destruct (wf_current p Hwf a Hc) as (w & Hw & _).
      apply (ingest_current description ts a w p Hc Hw).
    + apply (ingest_first description ts p Hc).
  - destruct (current_window p) as [a|] eqn:Hc.
    2:{ rewrite tick_idle; [reflexivity|].
        unfold current_object. rewrite Hc. discriminate. }
    destruct (wf_current p Hwf a Hc) as (w & Hw & _).
    destruct (is_complete w now) eqn:Hx.
    2:{ rewrite tick_idle; [reflexivity|].
        unfold current_object. rewrite Hc, Hw. intros ? [= <-]. exact Hx. }
    destruct (tick_expired E a w now p Hc Hw Hx) as (s & _ & _ & _ & Hdur & _).
    exact Hdur.
Qed.

Lemma fixed_duration_run_events E evs p :
  wf p -> fixed_duration p ->
  fixed_duration (run_events E p evs)
  /\ window_duration (run_events E p evs) = window_duration p.
Proof.
  unfold run_events. revert p.
  induction evs as [|ev evs IH]; intros p Hwf Hd; simpl; [split; auto|].
  destruct (IH (step E p ev)) as [H1 H2].
  - apply wf_step, Hwf.
  - apply fixed_duration_step; assumption.
  - split; [exact H1|]. rewrite H2. apply step_window_duration, Hwf.
Qed.

Lemma wf_valid_addrs p a : wf p -> a ∈ timeline_addrs p -> is_Some (heap p !! a).
Proof.
  intros Hwf Ha. unfold timeline_addrs in Ha.
  apply elem_of_app in Ha as [Ha | Ha].
  - destruct (wf_completed p Hwf a Ha) as (w & Hw & _). eauto.
  - destruct (current_window p) as [c|] eqn:Hc; simpl in Ha.
    + apply list_elem_of_singleton in Ha as ->.
      destruct (wf_current p Hwf c Hc) as (w & Hw & _). eauto.
    + inversion Ha.
Qed.

(** C2.  After construction and any sequence of ingests and ticks (the tick
    times need not even be ordered), the completed windows followed by the
    current window are all present in the store, each next one starts
    exactly where the previous one ends, no timestamp is accepted by two
    adjacent windows, and each window spans the configured duration from
    its start. *)
Theorem timeline_is_contiguous (E : Externals) (key : string) (camera : Z)
    (d : float) (p0 : CaptionPostProcessor) (evs : list Event) :
  CaptionPostProcessor_init E key camera d = inr p0 ->
  let p := run_events E p0 evs in
  length (timeline p) = length (timeline_addrs p)
  /\ contiguous (timeline p)
  /\ (forall k w1 w2 c,
        timeline p !! k = Some w1 -> timeline p !! S k = Some w2 ->
        in_window w1 c = true -> in_window w2 c = false)
  /\ (forall w, w ∈ timeline p -> end_time w = (start_time w + d)%float).
Proof.
  intros Hinit p.
  assert (Hwf0 : wf p0) by (eapply wf_init; exact Hinit).
  assert (Hwf : wf p) by (apply wf_run_events, Hwf0).
  destruct (init_windows E _ _ _ _ Hinit) as (_ & _ & Hh0 & Hd0).
  destruct (fixed_duration_run_events E evs p0 Hwf0) as [Hfd Hdur].
  { intros a w Ha. rewrite Hh0, lookup_nil in Ha. discriminate. }
  fold p in Hfd, Hdur. rewrite Hd0 in Hdur.
  split; [|split; [|split]].
  - apply objects_valid_length. intros a Ha. apply wf_valid_addrs; assumption.
  - apply (wf_contiguous p Hwf).
  - intros k w1 w2 c H1 H2. apply adjacent_windows_disjoint.
    apply (wf_contiguous p Hwf k w1 w2 H1 H2).
  - intros w Hw. unfold timeline, objects in Hw.
    apply list_elem_of_omap in Hw as (a & _ & Ha).
    rewrite <- Hdur. apply (Hfd a w Ha).
Qed.

(** A run for C2: three windows, the last one current. *)
Lemma timeline_is_contiguous_witness :
  CaptionPostProcessor_init Scenario.answering "key" 0 10
  = inr (Scenario.fresh 10)
  /\ let p := run_events Scenario.answering (Scenario.fresh 10)
                [Ingest "a desk" 0%float; Tick 35; Ingest "late" 12%float;
                 Tick 35] in
     length (timeline p) = length (timeline_addrs p)
     /\ contiguous (timeline p)
     /\ (forall k w1 w2 c,
           timeline p !! k = Some w1 -> timeline p !! S k = Some w2 ->
           in_window w1 c = true -> in_window w2 c = false)
     /\ (forall w, w ∈ timeline p -> end_time w = (start_time w + 10)%float).
Proof.
  split; [reflexivity|].
  apply (timeline_is_contiguous Scenario.answering "key" 0 10).
  reflexivity.
Defined.

(** A step of the capture loop leaves every summarised window object as
    it is: it mutates the current window only, which is not summarised. *)
Lemma summarised_frozen_step E p ev a w :
  wf p -> heap p !! a = Some w -> summarized w = true ->
  heap (step E p ev) !! a = Some w.
Proof.
  intros Hwf Ha Hs.
  assert (Hne : forall c, current_window p = Some c -> c <> a).
  { intros c Hc ->. destruct (wf_current p Hwf a Hc) as (w' & Hw' & Hs').
    congruence. }
  assert (Hlt : a < length (heap p)) by (eapply lookup_lt_Some; exact Ha).
  destruct ev as [description ts | now]; simpl.
  - destruct (current_window p) as [c|] eqn:Hc.
    + destruct (wf_current p Hwf c Hc) as (wc & Hwc & _).
      destruct (ingest_current description ts c wc p Hc Hwc) as (Hh & _).
      rewrite Hh, list_lookup_insert_ne by (apply Hne; reflexivity). exact Ha.
    + destruct (ingest_first description ts p Hc) as (Hh & _).
      rewrite Hh, lookup_app_l by exact Hlt. exact Ha.
  - destruct (current_window p) as [c|] eqn:Hc.
    2:{ rewrite tick_idle; [exact Ha|].
        unfold current_object. rewrite Hc. discriminate. }
    destruct (wf_current p Hwf c Hc) as (wc & Hwc & _).
    destruct (is_complete wc now) eqn:Hx.
    2:{ rewrite tick_idle; [exact Ha|].
        unfold current_object. rewrite Hc, Hwc. intros ? [= <-]. exact Hx. }
    destruct (tick_expired E c wc now p Hc Hwc Hx) as (s & Hh & _).
    simpl in Hh. rewrite Hh.
    rewrite lookup_app_l by (rewrite length_insert; exact Hlt).
    rewrite list_lookup_insert_ne by (apply Hne; reflexivity). exact Ha.
Qed.

Lemma summarised_frozen_run_events E evs p a w :
  wf p -> heap p !! a = Some w -> summarized w = true ->
  heap (run_events E p evs) !! a = Some w.
Proof.
  unfold run_events. revert p.
  induction evs as [|ev evs IH]; intros p Hwf Ha Hs; simpl; [exact Ha|].
  apply IH; [apply wf_step, Hwf | apply summarised_frozen_step; assumption
            | exact Hs].
Qed.

(** * Interleavings *)

(** ** The operations as sequences of writes *)

Lemma set_summary_two_writes s w :
  set_summary s w = with_summarized true (with_summary s w).
Proof. reflexivity. Qed.

(** An uninterrupted thread is an [ingest]. *)
Lemma run_thread_ingest description ts p :
  run_thread description ts p = ingest description ts p.
Proof.
  unfold run_thread, ingest, thread_step. simpl.
  destruct (current_window p) as [a|] eqn:Hc; simpl; [rewrite Hc|]; reflexivity.
Qed.

Lemma thread_step_writes t p :
  exists xs, snd (thread_step t p) = apply_writes p xs.
Proof.
  unfold thread_step. destruct (th_point t) as [| | | |a|]; simpl.
  - exists [WLatest (th_description t)]. reflexivity.
  - exists []. destruct (current_window p); reflexivity.
  - exists [WNewCurrent (th_timestamp t)]. reflexivity.
  - exists []. destruct (current_window p); reflexivity.
  - exists [WAddCaption a (CaptionEntry_init (th_description t) (th_timestamp t))].
    reflexivity.
  - exists []. reflexivity.
Qed.

Lemma apply_writes_app p xs ys :
  apply_writes p (xs ++ ys) = apply_writes (apply_writes p xs) ys.
Proof. unfold apply_writes. apply fold_left_app. Qed.

Lemma ingest_writes description ts p :
  exists xs, ingest description ts p = apply_writes p xs.
Proof.
  unfold ingest. simpl. destruct (current_window p) as [a|] eqn:Hc; simpl.
  - rewrite Hc.
    exists [WLatest description; WAddCaption a (CaptionEntry_init description ts)].
    reflexivity.
  - exists [WLatest description; WNewCurrent ts;
            WAddCaption (length (heap p)) (CaptionEntry_init description ts)].
    reflexivity.
Qed.

Lemma store_set_summary_writes a s w p :
  heap p !! a = Some w ->
  store a (set_summary s w) p = apply_writes p [WSummary a s; WSummarized a].
Proof.
  intros Ha. unfold apply_writes. simpl. rewrite Ha. simpl.
  rewrite list_lookup_insert_eq by (eapply lookup_lt_Some; exact Ha).
  unfold store. simpl. rewrite list_insert_insert_eq. reflexivity.
Qed.

Lemma summarize_window_writes E a p :
  exists xs, summarize_window E a p = apply_writes p xs.
Proof.
  unfold summarize_window. destruct (heap p !! a) as [w|] eqn:Ha.
  2:{ exists []. reflexivity. }
  assert (Hsentinel : exists xs,
            store a (set_summary "No captions to summarize" w) p
            = apply_writes p xs)
    by (eexists; apply store_set_summary_writes; exact Ha).
  destruct (model p) as [m|]; [|exact Hsentinel].
  destruct (captions w) as [|c cs]; [exact Hsentinel|].
  destruct (range_error E w) as [e|].
  { eexists. apply store_set_summary_writes. exact Ha. }
  destruct (generate_content E m (calls p) (summary_prompt E p (w))) as [t|e].
  - exists ([WCall (summary_prompt E p w)]
            ++ [WSummary a (Py.strip t); WSummarized a]).
    rewrite apply_writes_app.
    apply (store_set_summary_writes a (Py.strip t) w
             (with_calls (calls p ++ [summary_prompt E p w]) p)).
    exact Ha.
  - exists ([WCall (summary_prompt E p w)]
            ++ [WSummary a ("Summary error: " +:+ e); WSummarized a]).
    rewrite apply_writes_app.
    apply (store_set_summary_writes a ("Summary error: " +:+ e) w
             (with_calls (calls p ++ [summary_prompt E p w]) p)).
    exact Ha.
Qed.

Lemma complete_current_window_writes E p :
  exists xs, complete_current_window E p = apply_writes p xs.
Proof.
  unfold complete_current_window.
  destruct (current_window p) as [a|]; [|exists []; reflexivity].
  destruct (heap p !! a) as [w|] eqn:Ha; [|exists []; reflexivity].
  destruct (captions w) as [|c cs].
  - exists ([WSummary a "No captions captured"; WSummarized a] ++ [WCompleted a]).
    rewrite apply_writes_app,
      <- (store_set_summary_writes a "No captions captured" w p Ha).
    reflexivity.
  - destruct (summarize_window_writes E a p) as [xs Hxs].
    exists (xs ++ [WCompleted a]). rewrite apply_writes_app, <- Hxs. reflexivity.
Qed.

Lemma check_window_completion_writes E now p :
  exists xs, check_window_completion E now p = apply_writes p xs.
Proof.
  unfold check_window_completion.
  destruct (current_object p) as [w|]; [|exists []; reflexivity].
  destruct (is_complete w now); [|exists []; reflexivity].
  destruct (complete_current_window_writes E p) as [xs Hxs].
  destruct (current_object (complete_current_window E p)) as [w1|].
  - exists (xs ++ [WNewCurrent (end_time w1)]).
    rewrite apply_writes_app, <- Hxs. reflexivity.
  - exists xs. exact Hxs.
Qed.

(** Every step of the capture loop, and every step of a schedule of
    threads, is a sequence of writes. *)
Lemma step_writes E p ev : exists xs, step E p ev = apply_writes p xs.
Proof.
  destruct ev as [description ts | now]; simpl.
  - apply ingest_writes.
  - apply check_window_completion_writes.
Qed.

Lemma sys_step_writes E s x :
  exists xs, proc (sys_step E s x) = apply_writes (proc s) xs.
Proof.
  destruct x as [description ts | i | now]; simpl.
  - exists []. reflexivity.
  - destruct (threads s !! i) as [t|]; [|exists []; reflexivity].
    destruct (thread_step_writes t (proc s)) as [xs Hxs].
    exists xs. rewrite <- Hxs. destruct (thread_step t (proc s)). reflexivity.
  - apply check_window_completion_writes.
Qed.

(** ** What no write undoes *)

Lemma later_state_refl w : later_state w w.
Proof. unfold later_state. repeat split; auto. Qed.

Lemma later_state_trans w1 w2 w3 :
  later_state w1 w2 -> later_state w2 w3 -> later_state w1 w3.
Proof.
  unfold later_state. intros (H1 & H2 & H3 & H4) (K1 & K2 & K3 & K4).
  repeat split; [congruence | congruence | etrans; eassumption | auto].
Qed.

Lemma later_state_add_caption w c : later_state w (fst (add_caption w c)).
Proof.
  unfold later_state, add_caption. destruct (in_window w c); simpl;
    repeat split; auto. apply prefix_app_r. reflexivity.
Qed.

Lemma later_state_store a b w wb wb' p :
  heap p !! a = Some w -> heap p !! b = Some wb -> later_state wb wb' ->
  exists w', heap (store b wb' p) !! a = Some w' /\ later_state w w'.
Proof.
  intros Ha Hb Hl. unfold store. simpl. destruct (decide (a = b)) as [->|Hne].
  - exists wb'. rewrite list_lookup_insert_eq by (eapply lookup_lt_Some; exact Hb).
    split; [reflexivity|]. congruence.
  - exists w. rewrite list_lookup_insert_ne by congruence.
    split; [exact Ha | apply later_state_refl].
Qed.

Lemma apply_write_later_state p x a w :
  heap p !! a = Some w ->
  exists w', heap (apply_write p x) !! a = Some w' /\ later_state w w'.
Proof.
  intros Ha.
  assert (Hsame : exists w', heap p !! a = Some w' /\ later_state w w')
    by (exists w; split; [exact Ha | apply later_state_refl]).
  destruct x as [description|start|b c|b s|b|b|prompt|r]; simpl;
    try exact Hsame.
  - exists w. split; [|apply later_state_refl].
    apply lookup_app_l_Some. exact Ha.
  - destruct (heap p !! b) as [wb|] eqn:Hb; [|exact Hsame].
    eapply later_state_store; [exact Ha | exact Hb | apply later_state_add_caption].
  - destruct (heap p !! b) as [wb|] eqn:Hb; [|exact Hsame].
    eapply later_state_store; [exact Ha | exact Hb |].
    unfold later_state. simpl. repeat split; auto.
  - destruct (heap p !! b) as [wb|] eqn:Hb; [|exact Hsame].
    eapply later_state_store; [exact Ha | exact Hb |].
    unfold later_state. simpl. repeat split; auto.
Qed.

Lemma apply_writes_later_state xs p a w :
  heap p !! a = Some w ->
  exists w', heap (apply_writes p xs) !! a = Some w' /\ later_state w w'.
Proof.
  unfold apply_writes. revert p w.
  induction xs as [|x xs IH]; intros p w Ha; simpl.
  - exists w. split; [exact Ha | apply later_state_refl].
  - destruct (apply_write_later_state p x a w Ha) as (w1 & H1 & L1).
    destruct (IH _ _ H1) as (w2 & H2 & L2).
    exists w2. split; [exact H2 | eapply later_state_trans; eassumption].
Qed.

Lemma apply_write_completed p x :
  completed_windows p `prefix_of` completed_windows (apply_write p x).
Proof.
  destruct x as [description|start|b c|b s|b|b|prompt|r]; simpl;
    try reflexivity;
    try (destruct (heap p !! b); reflexivity).
  apply prefix_app_r. reflexivity.
Qed.

Lemma apply_writes_completed xs p :
  completed_windows p `prefix_of` completed_windows (apply_writes p xs).
Proof.
  unfold apply_writes. revert p.
  induction xs as [|x xs IH]; intros p; simpl; [reflexivity|].
  etrans; [apply apply_write_completed | apply IH].
Qed.

Lemma apply_write_ranges p x :
  (range <$> heap p) `prefix_of` (range <$> heap (apply_write p x)).
Proof.
  assert (Hstore : forall b wb wb', heap p !! b = Some wb ->
            later_state wb wb' ->
            (range <$> heap p) `prefix_of` (range <$> heap (store b wb' p))).
  { intros b wb wb' Hb (H1 & H2 & _). unfold store. simpl.
    rewrite list_fmap_insert, list_insert_id; [reflexivity|].
    rewrite list_lookup_fmap, Hb. simpl. unfold range. congruence. }
  destruct x as [description|start|b c|b s|b|b|prompt|r]; simpl;
    try reflexivity.
  - rewrite fmap_app. apply prefix_app_r. reflexivity.
  - destruct (heap p !! b) as [wb|] eqn:Hb; [|reflexivity].
    eapply Hstore; [exact Hb | apply later_state_add_caption].
  - destruct (heap p !! b) as [wb|] eqn:Hb; [|reflexivity].
    eapply Hstore; [exact Hb|]. unfold later_state. simpl. repeat split; auto.
  - destruct (heap p !! b) as [wb|] eqn:Hb; [|reflexivity].
    eapply Hstore; [exact Hb|]. unfold later_state. simpl. repeat split; auto.
Qed.

Lemma apply_writes_ranges xs p :
  (range <$> heap p) `prefix_of` (range <$> heap (apply_writes p xs)).
Proof.
  unfold apply_writes. revert p.
  induction xs as [|x xs IH]; intros p; simpl; [reflexivity|].
  etrans; [apply apply_write_ranges | apply IH].
Qed.

Lemma run_events_writes E evs p :
  exists xs, run_events E p evs = apply_writes p xs.
Proof.
  unfold run_events. revert p.
  induction evs as [|ev evs IH]; intros p; simpl.
  - exists []. reflexivity.
  - destruct (step_writes E p ev) as [xs Hxs].
    destruct (IH (step E p ev)) as [ys Hys].
    exists (xs ++ ys). rewrite apply_writes_app, <- Hxs. exact Hys.
Qed.

Lemma run_schedule_writes E sched s :
  exists xs, proc (run_schedule E s sched) = apply_writes (proc s) xs.
Proof.
  unfold run_schedule. revert s.
  induction sched as [|x sched IH]; intros s; simpl.
  - exists []. reflexivity.
  - destruct (sys_step_writes E s x) as [xs Hxs].
    destruct (IH (sys_step E s x)) as [ys Hys].
    exists (xs ++ ys). rewrite apply_writes_app, <- Hxs. exact Hys.
Qed.


(** The guard against late captions is the processor's, not the
    window's: [add_caption] does not look at [summarized]. *)
Remark add_caption_ignores_summarized :
  let w := set_summary "done" (CaptionWindow_init 0 10) in
  let c := CaptionEntry_init "late" 5 in
  add_caption w c = (with_captions [c] w, true).
Proof. reflexivity. Qed.

(** C4 (counterexample).  The analysis threads and the main thread share
    the windows without a lock.  Here the thread of the caption stamped 5
    has read [current_window], the window [0,10), when the tick at 35
    summarises that window; the thread then runs [add_caption] on the
    object it holds, and the caption is added to a window whose
    [summarized] is already true. *)
Lemma caption_added_after_summary :
  let s0 := {| proc := Scenario.fresh 10; threads := [] |} in
  let sealed :=
    run_schedule Scenario.answering s0
      [Spawn "a desk" 0%float; Run 0; Run 0; Run 0; Run 0; Run 0;
       Spawn "late" 5%float; Run 1; Run 1; Run 1;
       MainTick 35] in
  let after := sys_step Scenario.answering sealed (Run 1) in
  (th_point <$> threads sealed !! 1 = Some (AtAdd 0)
   /\ summarized <$> heap (proc sealed) !! 0 = Some true
   /\ (fun w => text <$> captions w) <$> heap (proc sealed) !! 0
      = Some ["a desk"])
  /\ summarized <$> heap (proc after) !! 0 = Some true
  /\ (fun w => text <$> captions w) <$> heap (proc after) !! 0
     = Some ["a desk"; "late"]
  /\ completed_windows (proc after) = [0].
Proof. vm_compute. repeat split. Qed.

(** C4 (amended).  A window object whose [summarized] is true keeps it
    true, with its range and with the captions it has, first and in
    order, through every sequence of writes of the program, so under every
    interleaving of the threads; more captions may follow.  When every
    ingest and every tick runs to its end before the next one starts, as
    in a state the capture loop reaches from construction by such events,
    a summarised window stays exactly as it is through all later ingests
    and ticks (its summary is not set again and no caption is added to
    it), and the current window, the only one a tick summarises, is not
    summarised yet, so each window is summarised once, going from false
    to true.  The summary is a string from construction on, never
    [None]. *)
Theorem summarised_window_is_final (q : CaptionPostProcessor) (a : addr)
    (w : CaptionWindow) :
  heap q !! a = Some w -> summarized w = true ->
  (forall xs : list Write,
     exists w', heap (apply_writes q xs) !! a = Some w'
       /\ summarized w' = true
       /\ start_time w' = start_time w
       /\ end_time w' = end_time w
       /\ captions w `prefix_of` captions w')
  /\ (forall (E : Externals) (key : string) (camera : Z) (d : float)
        (p0 : CaptionPostProcessor) (evs : list Event),
        CaptionPostProcessor_init E key camera d = inr p0 ->
        q = run_events E p0 evs ->
        (forall later : list Event,
           heap (run_events E q later) !! a = Some w)
        /\ (forall c, current_window q = Some c ->
              exists wc, heap q !! c = Some wc /\ summarized wc = false
                /\ c <> a)).
Proof.
  intros Ha Hs. split.
  - intros xs.
    destruct (apply_writes_later_state xs q a w Ha) as (w' & Hw' & L1 & L2 & L3 & L4).
    exists w'. repeat split; auto.
  - intros E key camera d p0 evs Hinit Hq.
    assert (Hwf : wf q)
      by (rewrite Hq; apply wf_run_events; eapply wf_init; exact Hinit).
    split.
    + intros later. apply summarised_frozen_run_events; assumption.
    + intros c Hc. destruct (wf_current q Hwf c Hc) as (wc & Hwc & Hsc).
      exists wc. repeat split; [exact Hwc | exact Hsc |].
      intros ->. congruence.
Qed.

(** A run for C4: the window [0,10) is summarised by the tick at 35. *)
Lemma summarised_window_is_final_witness :
  let w0 := {| start_time := 0; end_time := 10;
               captions := [{| text := "a desk"; timestamp := 0 |}];
               summary := "A person sat down at the desk.";
               summarized := true |} in
  let q := run_events Scenario.answering (Scenario.fresh 10)
             [Ingest "a desk" 0%float; Tick 35] in
  (heap q !! 0 = Some w0 /\ summarized w0 = true)
  /\ (forall xs : list Write,
        exists w', heap (apply_writes q xs) !! 0 = Some w'
          /\ summarized w' = true
          /\ start_time w' = start_time w0
          /\ end_time w' = end_time w0
          /\ captions w0 `prefix_of` captions w')
  /\ (forall (E : Externals) (key : string) (camera : Z) (d : float)
        (p0 : CaptionPostProcessor) (evs : list Event),
        CaptionPostProcessor_init E key camera d = inr p0 ->
        q = run_events E p0 evs ->
        (forall later : list Event,
           heap (run_events E q later) !! 0 = Some w0)
        /\ (forall c, current_window q = Some c ->
              exists wc, heap q !! c = Some wc /\ summarized wc = false
                /\ c <> 0)).
Proof.
  intros w0 q. split; [split; reflexivity|].
  apply (summarised_window_is_final q 0 w0); reflexivity.
Defined.




(** C6.  When the summarisation of the expired current window raises,
    be it the model on the prompt or, before any call, the formatting of
    the window's range for the prompt, the tick still leaves the window
    with [summarized] true and with the summary [Summary error: ] followed
    by the exception's message, its captions, start and end as they were;
    it appends the window to the completed windows and rolls over to a new
    window, empty and not summarised, that starts at its end and spans the
    window duration; that window is completed in turn by a later tick. *)
Theorem model_failure_is_isolated (E : Externals) (now : float)
    (p : CaptionPostProcessor) (a : addr) (w : CaptionWindow)
    (m e : string) :
  current_window p = Some a -> heap p !! a = Some w ->
  captions w <> [] -> is_complete w now = true ->
  model p = Some m ->
  (range_error E w = Some e
   \/ (range_error E w = None
       /\ generate_content E m (calls p) (summary_prompt E p w)
          = GenRaise e)) ->
  let p' := check_window_completion E now p in
  (exists w',
     heap p' !! a = Some w'
     /\ summarized w' = true
     /\ summary w' = "Summary error: " +:+ e
     /\ captions w' = captions w
     /\ start_time w' = start_time w
     /\ end_time w' = end_time w)
  /\ completed_windows p' = completed_windows p ++ [a]
  /\ current_window p' = Some (length (heap p))
  /\ (exists next,
        current_object p' = Some next
        /\ start_time next = end_time w
        /\ end_time next = (end_time w + window_duration p)%float
        /\ captions next = []
        /\ summarized next = false
        /\ forall now', is_complete next now' = true ->
             completed_windows (check_window_completion E now' p')
             = completed_windows p ++ [a; length (heap p)]).
Proof.
  intros Hc Ha Hne Hx Hm Hg. simpl.
  assert (Hlt : a < length (heap p)) by (eapply lookup_lt_Some; exact Ha).
  set (next := CaptionWindow_init (end_time w) (window_duration p)).
  set (p' := check_window_completion E now p).
  assert (Hp' : heap p' = <[a := set_summary ("Summary error: " +:+ e) w]> (heap p)
                          ++ [next]
                /\ completed_windows p' = completed_windows p ++ [a]
                /\ current_window p' = Some (length (heap p))).
  { unfold p', check_window_completion, current_object.
    rewrite Hc, Ha, Hx. unfold complete_current_window. rewrite Hc, Ha.
    destruct (captions w) as [|c cs] eqn:Ec; [contradiction|].
    unfold summarize_window. rewrite Ha, Hm, Ec.
    destruct Hg as [Hr | [Hr Hg]]; rewrite Hr; [|rewrite Hg]; simpl;
      rewrite Hc, list_lookup_insert_eq by exact Hlt; simpl;
      rewrite length_insert; repeat split. }
  destruct Hp' as (Hh & Hl & Hc').
  assert (Hnext : heap p' !! length (heap p) = Some next).
  { rewrite Hh, lookup_app_r by (rewrite length_insert; lia).
    rewrite length_insert.
    replace (length (heap p) - length (heap p)) with 0 by lia. reflexivity. }
  split; [|split; [|split]].
  - exists (set_summary ("Summary error: " +:+ e) w).
    split; [|repeat split].
    rewrite Hh, lookup_app_l by (rewrite length_insert; exact Hlt).
    apply list_lookup_insert_eq. exact Hlt.
  - exact Hl.
  - exact Hc'.
  - exists next. split; [unfold current_object; rewrite Hc'; exact Hnext|].
    repeat split.
    intros now' Hx'.
    destruct (tick_expired E _ next now' p' Hc' Hnext Hx') as (s & _ & Hl' & _).
    simpl in Hl'. rewrite Hl', Hl, <- app_assoc. reflexivity.
Qed.

(** A run for C6: the model times out on the window [0,10). *)
Lemma model_failure_is_isolated_witness :
  let w0 := fst (add_caption (CaptionWindow_init 0 10)
                   (CaptionEntry_init "a desk" 0)) in
  let p := run_events Scenario.timing_out (Scenario.fresh 10)
             [Ingest "a desk" 0%float] in
  let p' := check_window_completion Scenario.timing_out 35 p in
  (current_window p = Some 0 /\ heap p !! 0 = Some w0
   /\ captions w0 <> [] /\ is_complete w0 35 = true
   /\ model p = Some "gemini-2.0-flash"
   /\ range_error Scenario.timing_out w0 = None
   /\ generate_content Scenario.timing_out "gemini-2.0-flash" (calls p)
        (summary_prompt Scenario.timing_out p w0)
      = GenRaise "504 Deadline Exceeded")
  /\ (exists w',
        heap p' !! 0 = Some w'
        /\ summarized w' = true
        /\ summary w' = "Summary error: 504 Deadline Exceeded"
        /\ captions w' = captions w0
        /\ start_time w' = start_time w0
        /\ end_time w' = end_time w0)
  /\ completed_windows p' = [0]
  /\ current_window p' = Some 1
  /\ (exists next,
        current_object p' = Some next
        /\ start_time next = end_time w0
        /\ end_time next = (end_time w0 + window_duration p)%float
        /\ captions next = []
        /\ summarized next = false
        /\ forall now', is_complete next now' = true ->
             completed_windows
               (check_window_completion Scenario.timing_out now' p')
             = [0; 1]).
Proof.
  intros w0 p p'.
  assert (Hne : captions w0 <> []) by discriminate.
  split; [repeat split; exact Hne|].
  apply (model_failure_is_isolated Scenario.timing_out 35 p 0 w0
           "gemini-2.0-flash" "504 Deadline Exceeded");
    solve [reflexivity | exact Hne | right; split; reflexivity].
Defined.

(** C7 (counterexample).  Construction succeeds with a zero and with a
    negative window duration. *)
Lemma non_positive_duration_accepted :
  (exists p, CaptionPostProcessor_init Scenario.answering "key" 0 0 = inr p
             /\ (window_duration p <=? 0)%float = true)
  /\ (exists p, CaptionPostProcessor_init Scenario.answering "key" 0 (-5) = inr p
                /\ (window_duration p <=? 0)%float = true).
Proof.
  split; eexists; split; reflexivity.
Qed.

(** C7 (amended).  Construction never fails on account of the window
    duration: whether it fails is decided by the initialisation of Gemini
    alone and is the same for every duration, positive or not.  When it
    succeeds, the processor holds the duration as given and no window. *)
Theorem init_ignores_window_duration (E : Externals) (key : string)
    (camera : Z) (d : float) :
  match CaptionPostProcessor_init E key camera d with
  | inl e => forall d', CaptionPostProcessor_init E key camera d' = inl e
  | inr p =>
      window_duration p = d
      /\ current_window p = None /\ completed_windows p = [] /\ heap p = []
      /\ forall d', exists p', CaptionPostProcessor_init E key camera d' = inr p'
  end.
Proof.
  assert (Hgen : forall names p q,
            model q = model p -> calls q = calls p ->
            match try_models E names p with
            | inl e => try_models E names q = inl e
            | inr _ => exists q', try_models E names q = inr q'
            end).
  { induction names as [|n names IH]; intros p q Hm Hcalls; simpl.
    - reflexivity.
    - destruct (GenerativeModel E n) as [e|m]; [apply IH; assumption|].
      simpl. rewrite Hcalls.
      destruct (generate_content E m (calls p) "Hello") as [t|e].
      + destruct (String.eqb t "").
        * apply IH; simpl; congruence.
        * eauto.
      + apply IH; simpl; congruence. }
  destruct (CaptionPostProcessor_init E key camera d) as [e|p] eqn:Hinit.
  - intros d'. unfold CaptionPostProcessor_init, initialize_gemini in *.
    match goal with
    | |- try_models E _ ?q = _ =>
        match type of Hinit with
        | try_models E _ ?p0 = _ =>
            specialize (Hgen model_names p0 q eq_refl eq_refl)
        end
    end.
    rewrite Hinit in Hgen. exact Hgen.
  - destruct (init_windows E _ _ _ _ Hinit) as (Hc & Hl & Hh & Hd).
    repeat split; try assumption.
    intros d'. unfold CaptionPostProcessor_init, initialize_gemini in *.
    match goal with
    | |- exists _, try_models E _ ?q = _ =>
        match type of Hinit with
        | try_models E _ ?p0 = _ =>
            specialize (Hgen model_names p0 q eq_refl eq_refl)
        end
    end.
    rewrite Hinit in Hgen. exact Hgen.
Qed.

(** C9.  [run] raises [AttributeError] at [self.process_captions()], right
    after the capture loop and its cleanup: the name is neither a method
    of the class nor an attribute of the instance.  The processor is then
    as the capture loop left it: the block that summarises the last
    window has not run, and [run] returns no report. *)
Theorem run_raises_AttributeError (E : Externals) (evs : list Event)
    (p : CaptionPostProcessor) :
  run E evs p
  = Raised
      (Py.AttributeError
         "'CaptionPostProcessor' object has no attribute 'process_captions'")
      (capture_and_display E evs (with_running true p))
  /\ (forall p' report, run E evs p <> Returned p' report)
  /\ (forall e p', run E evs p = Raised e p' ->
        heap p' = heap (run_events E (with_running true p) evs)
        /\ completed_windows p'
           = completed_windows (run_events E (with_running true p) evs)).
Proof.
  assert (H : run E evs p
    = Raised
        (Py.AttributeError
           "'CaptionPostProcessor' object has no attribute 'process_captions'")
        (capture_and_display E evs (with_running true p))).
  { unfold run.
    replace (lookup_attribute "process_captions")
      with (inl (B := unit)
              (Py.AttributeError
                 "'CaptionPostProcessor' object has no attribute 'process_captions'"))
      by (vm_compute; reflexivity).
    reflexivity. }
  split; [exact H|]. rewrite H. split.
  - intros p' report. discriminate.
  - intros e p' [= _ <-]. split; reflexivity.
Qed.

(** What lines 394 to 397 of [run] would do if they were reached: a
    current window with captions is summarised with those captions and
    appended to the completed windows; one without captions is left as it
    is, neither summarised nor appended. *)
Lemma seal_final_window_spec (E : Externals) (p : CaptionPostProcessor)
    (a : addr) (w : CaptionWindow) :
  current_window p = Some a -> heap p !! a = Some w ->
  let p' := seal_final_window E p in
  match captions w with
  | _ :: _ =>
      exists s, heap p' !! a = Some (set_summary s w)
                /\ completed_windows p' = completed_windows p ++ [a]
  | [] => p' = p
  end.
Proof.
  intros Hc Ha. simpl. unfold seal_final_window. rewrite Hc, Ha.
  destruct (captions w) as [|c cs] eqn:Ec; [reflexivity|].
  destruct (summarize_window_spec E a w p Ha) as (s & Hh & Hl & _).
  exists s. simpl. rewrite Hh, Hl. split; [|reflexivity].
  apply list_lookup_insert_eq. eapply lookup_lt_Some. exact Ha.
Qed.

(** C8 (the code at the failing input).  Two captions are in the current
    window [0,30) when the capture loop ends; [run] raises before the block
    that would summarise it, so the window stays unsummarised, with its two
    captions, and is not among the completed windows. *)
Lemma run_leaves_last_window_unsummarised :
  CaptionPostProcessor_init Scenario.answering "key" 0 30
  = inr (Scenario.fresh 30)
  /\ exists e p,
       run Scenario.answering [Ingest "a desk" 0%float; Ingest "a cup" 3%float]
         (Scenario.fresh 30) = Raised e p
       /\ completed_windows p = []
       /\ (map text ∘ captions) <$> current_object p = Some ["a desk"; "a cup"]
       /\ summarized <$> current_object p = Some false
       /\ summary <$> current_object p = Some "".
Proof.
  split; [reflexivity|]. eexists _, _. split; [vm_compute; reflexivity|].
  vm_compute. repeat split.
Qed.

(** ** Completed windows are summarised *)









(** * Runs of the capture loop *)

Lemma transition_step E p ev : wf p -> Transition E p ev (step E p ev).
Proof.
  intros Hwf. destruct ev as [description ts | now]; simpl.
  - destruct (current_window p) as [a|] eqn:Hc.
    + destruct (wf_current p Hwf a Hc) as (w & Hw & _).
      destruct (ingest_current description ts a w p Hc Hw)
        as (Hh & Hl & Hc' & Hd & Hm).
      eapply T_offer; eauto.
      unfold ingest. simpl. rewrite Hc. simpl. rewrite Hc, Hw. reflexivity.
    + destruct (ingest_first description ts p Hc) as (Hh & Hl & Hc' & Hd & Hm).
      eapply T_first; eauto.
      unfold ingest. simpl. rewrite Hc. simpl.
      rewrite lookup_app_r by lia.
      replace (length (heap p) - length (heap p)) with 0 by lia. reflexivity.
  - destruct (current_window p) as [a|] eqn:Hc.
    2:{ rewrite tick_idle.
        - apply T_idle. unfold current_object. rewrite Hc. discriminate.
        - unfold current_object. rewrite Hc. discriminate. }
    destruct (wf_current p Hwf a Hc) as (w & Hw & _).
    destruct (is_complete w now) eqn:Hx.
    2:{ assert (Hidle : forall w', current_object p = Some w' ->
                          is_complete w' now = false).
        { unfold current_object. rewrite Hc, Hw. intros ? [= <-]. exact Hx. }
        rewrite tick_idle by exact Hidle. apply T_idle. exact Hidle. }
    destruct (tick_expired E a w now p Hc Hw Hx) as (s & Hh & Hl & Hc' & Hd & Hm).
    eapply T_roll; eauto.
    assert (Hlt : a < length (heap p)) by (eapply lookup_lt_Some; exact Hw).
    unfold check_window_completion, current_object.
    rewrite Hc, Hw, Hx. unfold complete_current_window, summary_calls.
    rewrite Hc, Hw.
    destruct (captions w) as [|c cs] eqn:Ec.
    + simpl. rewrite Hc, list_lookup_insert_eq by exact Hlt. simpl.
      destruct (model p); rewrite app_nil_r; reflexivity.
    + unfold summarize_window. rewrite Hw, Ec.
      destruct (model p) as [m|] eqn:Em.
      * destruct (range_error E w) as [e|];
          [|destruct (generate_content E m (calls p) (summary_prompt E p w))];
          simpl; rewrite Hc, list_lookup_insert_eq by exact Hlt;
          rewrite ?app_nil_r; reflexivity.
      * simpl. rewrite Hc, list_lookup_insert_eq by exact Hlt. simpl.
        rewrite app_nil_r. reflexivity.
Qed.

Lemma run_events_snoc E p evs ev :
  run_events E p (evs ++ [ev]) = step E (run_events E p evs) ev.
Proof. unfold run_events. rewrite fold_left_app. reflexivity. Qed.

Lemma run_events_app E p evs1 evs2 :
  run_events E p (evs1 ++ evs2) = run_events E (run_events E p evs1) evs2.
Proof. unfold run_events. apply fold_left_app. Qed.

Lemma objects_seq h : objects h (seq 0 (length h)) = h.
Proof.
  induction h as [|x h IH] using rev_ind; [reflexivity|].
  rewrite length_app. simpl. rewrite Nat.add_1_r, seq_S. simpl.
  rewrite objects_app.
  rewrite objects_alloc.
  - rewrite IH, (objects_single _ (length h) x); [reflexivity|].
    rewrite lookup_app_r by lia.
    replace (length h - length h) with 0 by lia. reflexivity.
  - intros a Ha. apply list_elem_of_In, in_seq in Ha.
    apply lookup_lt_is_Some. lia.
Qed.

Lemma sound_timeline p : sound p -> timeline p = heap p.
Proof.
  intros Hs. unfold timeline. rewrite (sound_linear p Hs). apply objects_seq.
Qed.

Lemma in_window_range w w' c : range w' = range w -> in_window w' c = in_window w c.
Proof. unfold in_window. intros [= -> ->]. reflexivity. Qed.

Lemma add_caption_members w c :
  (forall c', c' ∈ captions w -> in_window w c' = true) ->
  forall c', c' ∈ captions (fst (add_caption w c)) ->
    in_window (fst (add_caption w c)) c' = true.
Proof.
  intros Hall c' Hc'. rewrite (in_window_range w) by apply range_add_caption.
  unfold add_caption in Hc'. destruct (in_window w c) eqn:Hin; simpl in Hc'.
  - apply elem_of_app in Hc' as [Hc' | Hc']; [apply Hall, Hc'|].
    apply list_elem_of_singleton in Hc' as ->. exact Hin.
  - apply Hall, Hc'.
Qed.

Lemma sound_transition E p ev p' :
  sound p -> wf p' -> Transition E p ev p' -> sound p'.
Proof.
  intros Hs Hwf' Ht. pose proof (sound_wf p Hs) as Hwf.
  pose proof (sound_linear p Hs) as Hlin.
  destruct Ht as [description ts p' Hc Hh Hl Hc' _ _ _
                 | description ts a w p' Hc Hw Hh Hl Hc' _ _ _
                 | now Hidle
                 | now a w s p' Hc Hw Hx Hh Hl Hc' _ _ _]; [| | exact Hs |].
  - assert (Hnil : heap p = []).
    { rewrite (timeline_addrs_none p Hc), (wf_origin p Hwf Hc) in Hlin.
      destruct (heap p); [reflexivity|discriminate]. }
    split; [exact Hwf'| |].
    + rewrite (timeline_addrs_current _ _ Hc'), Hl, (wf_origin p Hwf Hc), Hh, Hnil.
      reflexivity.
    + intros b x c. rewrite Hh, Hnil. simpl. intros Hb.
      apply list_lookup_singleton_Some in Hb as (_ & <-).
      apply add_caption_members. simpl. intros c' Hc0. inversion Hc0.
  - split; [exact Hwf'| |].
    + rewrite (timeline_addrs_current _ _ Hc'), Hl, Hh, length_insert.
      rewrite <- (timeline_addrs_current p a Hc). exact Hlin.
    + intros b x c. rewrite Hh. intros Hb.
      apply list_lookup_insert_Some in Hb as [(<- & <- & _) | (_ & Hb)].
      * apply add_caption_members. intros c'. apply (sound_members p Hs a w c' Hw).
      * apply (sound_members p Hs b x c Hb).
  - split; [exact Hwf'| |].
    + rewrite (timeline_addrs_current _ _ Hc'), Hl, Hh, length_app, length_insert.
      simpl. rewrite Nat.add_1_r, seq_S. simpl.
      rewrite <- (timeline_addrs_current p a Hc), Hlin. reflexivity.
    + intros b x c. rewrite Hh. intros Hb.
      apply lookup_app_Some in Hb as [Hb | (_ & Hb)].
      * apply list_lookup_insert_Some in Hb as [(<- & <- & _) | (_ & Hb)].
        -- simpl. intros Hc0.
           rewrite (in_window_range w) by reflexivity.
           apply (sound_members p Hs a w c Hw Hc0).
        -- apply (sound_members p Hs b x c Hb).
      * apply list_lookup_singleton_Some in Hb as (_ & <-).
        simpl. intros Hc0. inversion Hc0.
Qed.

Lemma sound_step E p ev : sound p -> sound (step E p ev).
Proof.
  intros Hs. apply (sound_transition E p ev); [exact Hs | |].
  - apply wf_step, (sound_wf p Hs).
  - apply transition_step, (sound_wf p Hs).
Qed.

Lemma sound_run_events E evs p : sound p -> sound (run_events E p evs).
Proof.
  unfold run_events. revert p.
  induction evs as [|ev evs IH]; intros p Hs; simpl; [exact Hs|].
  apply IH, sound_step, Hs.
Qed.

Lemma sound_init E key camera d p :
  CaptionPostProcessor_init E key camera d = inr p -> sound p.
Proof.
  intros Hinit. destruct (init_windows E _ _ _ _ Hinit) as (Hc & Hl & Hh & _).
  split.
  - eapply wf_init. exact Hinit.
  - rewrite (timeline_addrs_none p Hc), Hl, Hh. reflexivity.
  - intros a w c Ha. rewrite Hh, lookup_nil in Ha. discriminate.
Qed.

Lemma sound_no_current p :
  sound p -> current_window p = None -> heap p = [].
Proof.
  intros Hs Hc. pose proof (sound_linear p Hs) as Hlin.
  rewrite (timeline_addrs_none p Hc), (wf_origin p (sound_wf p Hs) Hc) in Hlin.
  destruct (heap p); [reflexivity|discriminate].
Qed.


Lemma fmap_insert_same {A B} (f : A -> B) (l : list A) a x y :
  l !! a = Some x -> f y = f x -> f <$> <[a := y]> l = f <$> l.
Proof.
  intros Hx Hf. rewrite list_fmap_insert, Hf.
  apply list_insert_id. rewrite list_lookup_fmap, Hx. reflexivity.
Qed.


(** *** Captions are stored in arrival order *)


Lemma ingested_cons ev evs : ingested (ev :: evs) = ingested [ev] ++ ingested evs.
Proof. unfold ingested. destruct ev; reflexivity. Qed.


(** *** Windows are only ever added at the end *)

Lemma ranges_transition E p ev p' :
  sound p -> Transition E p ev p' ->
  (range <$> heap p) `prefix_of` (range <$> heap p')
  /\ completed_windows p `prefix_of` completed_windows p'.
Proof.
  intros Hs Ht.
  destruct Ht as [description ts p' Hc Hh Hl Hc' _ _ _
                 | description ts a w p' Hc Hw Hh Hl Hc' _ _ _
                 | now Hidle
                 | now a w s p' Hc Hw Hx Hh Hl Hc' _ _ _].
  - rewrite (sound_no_current p Hs Hc), Hl. split; [apply prefix_nil | reflexivity].
  - rewrite Hh, Hl, (fmap_insert_same range _ a w);
      [split; reflexivity | exact Hw | apply range_add_caption].
  - split; reflexivity.
  - rewrite Hh, Hl, fmap_app, (fmap_insert_same range _ a w);
      [| exact Hw | reflexivity].
    split; apply prefix_app_r; reflexivity.
Qed.

Lemma ranges_run E evs p :
  sound p ->
  (range <$> heap p) `prefix_of` (range <$> heap (run_events E p evs))
  /\ completed_windows p `prefix_of` completed_windows (run_events E p evs).
Proof.
  revert p. induction evs as [|ev evs IH]; intros p Hs.
  - split; reflexivity.
  - destruct (ranges_transition E p ev (step E p ev) Hs) as [H1 H2];
      [apply transition_step, (sound_wf p Hs)|].
    destruct (IH (step E p ev)) as [H3 H4]; [apply sound_step, Hs|].
    change (run_events E p (ev :: evs)) with (run_events E (step E p ev) evs).
    split; etransitivity; eassumption.
Qed.


(** *** Completion needs a tick at or after the window's end *)





(** *** One summary prompt per completed window with captions *)

Lemma objects_store_notin h a y l :
  a ∉ l -> objects (<[a := y]> h) l = objects h l.
Proof.
  induction l as [|b l IH]; intros Hn; [reflexivity|].
  rewrite !objects_cons.
  rewrite list_lookup_insert_ne by (intros ->; apply Hn; left).
  rewrite IH by (intros Hin; apply Hn; right; exact Hin). reflexivity.
Qed.

Lemma summary_prompt_ext E p p' w w' :
  window_duration p' = window_duration p ->
  range w' = range w -> captions w' = captions w ->
  summary_prompt E p' w' = summary_prompt E p w.
Proof.
  intros Hd [= Hs He] Hc.
  unfold summary_prompt, get_timestamp_range, get_captions_text.
  rewrite Hd, Hs, He, Hc. reflexivity.
Qed.

Lemma init_model E key camera d p :
  CaptionPostProcessor_init E key camera d = inr p -> is_Some (model p).
Proof.
  unfold CaptionPostProcessor_init, initialize_gemini.
  generalize model_names. intros names.
  generalize ({| api_key := key; camera_index := camera; window_duration := d;
                 model := None; running := false; current_window := None;
                 completed_windows := [];
                 latest_description := "Initializing..."; heap := [];
                 calls := [] |}).
  induction names as [|n names IH]; intros q H; simpl in H; [discriminate|].
  destruct (GenerativeModel E n) as [e|m]; [exact (IH _ H)|].
  destruct (generate_content E m _ "Hello") as [t|e].
  - destruct (String.eqb t ""); [exact (IH _ H)|].
    injection H as <-. simpl. eauto.
  - exact (IH _ H).
Qed.

Lemma accounted_transition E base p ev p' :
  sound p -> is_Some (model p) -> accounted E base p ->
  Transition E p ev p' -> accounted E base p' /\ model p' = model p.
Proof.
  intros Hs [m Hm] Hacc Ht. unfold accounted, prompted in *.
  assert (Hext : forall q (l : list CaptionWindow),
            window_duration q = window_duration p ->
            summary_prompt E q <$> l = summary_prompt E p <$> l).
  { intros q l Hq. apply list_fmap_ext. intros i x _.
    apply summary_prompt_ext; [exact Hq | reflexivity | reflexivity]. }
  destruct Ht as [description ts p' Hc Hh Hl Hc' Hcalls Hd Hm'
                 | description ts a w p' Hc Hw Hh Hl Hc' Hcalls Hd Hm'
                 | now Hidle
                 | now a w s p' Hc Hw Hx Hh Hl Hc' Hcalls Hd Hm'].
  - split; [|exact Hm'].
    rewrite Hcalls, Hacc, Hl, (wf_origin p (sound_wf p Hs) Hc). reflexivity.
  - split; [|exact Hm'].
    rewrite Hcalls, Hacc, Hl, Hh, (Hext p' _ Hd).
    rewrite objects_store_notin
      by (apply wf_current_not_completed; [apply (sound_wf p Hs) | exact Hc]).
    reflexivity.
  - split; [exact Hacc | reflexivity].
  - split; [|exact Hm'].
    assert (Hlt : a < length (heap p)) by (eapply lookup_lt_Some; exact Hw).
    assert (Hobj : objects (heap p') (completed_windows p')
                   = objects (heap p) (completed_windows p) ++ [set_summary s w]).
    { rewrite Hh, Hl, objects_alloc.
      - rewrite objects_app, objects_store_notin
          by (apply wf_current_not_completed;
              [apply (sound_wf p Hs) | exact Hc]).
        rewrite (objects_single _ a (set_summary s w))
          by (apply list_lookup_insert_eq; exact Hlt).
        reflexivity.
      - intros b Hb. apply lookup_lt_is_Some. rewrite length_insert.
        apply elem_of_app in Hb as [Hb | Hb].
        + destruct (wf_completed p (sound_wf p Hs) b Hb) as (x & Hx' & _).
          eapply lookup_lt_Some. exact Hx'.
        + apply list_elem_of_singleton in Hb as ->. exact Hlt. }
    rewrite Hcalls, Hacc, Hobj, (Hext p' _ Hd), filter_app, fmap_app.
    rewrite <- app_assoc. f_equal. f_equal.
    unfold summary_calls. rewrite Hm.
    destruct (captions w) as [|c cs] eqn:Ec.
    + rewrite filter_cons_False by (simpl; rewrite Ec; tauto). reflexivity.
    + destruct (range_error E w) as [e|] eqn:Er.
      * rewrite filter_cons_False
          by (unfold range_error in *; simpl; rewrite Er; intros [_ ?];
              discriminate).
        reflexivity.
      * rewrite filter_cons_True
          by (unfold range_error in *; simpl; rewrite Er, Ec; split;
              [discriminate | reflexivity]).
        rewrite filter_nil. reflexivity.
Qed.

Lemma accounted_run E base evs p :
  sound p -> is_Some (model p) -> accounted E base p ->
  accounted E base (run_events E p evs).
Proof.
  revert p. induction evs as [|ev evs IH]; intros p Hs Hm Hacc; [exact Hacc|].
  change (run_events E p (ev :: evs)) with (run_events E (step E p ev) evs).
  destruct (accounted_transition E base p ev (step E p ev) Hs Hm Hacc)
    as [Hacc1 Hm1]; [apply transition_step, (sound_wf p Hs)|].
  apply IH; [apply sound_step, Hs | rewrite Hm1; exact Hm | exact Hacc1].
Qed.

(** *** The origin of the timeline *)

Lemma ticks_before_first_caption E evs p :
  current_window p = None -> ingested evs = [] -> run_events E p evs = p.
Proof.
  intros Hc. induction evs as [|[description ts | now] evs IH]; intros Hi.
  - reflexivity.
  - discriminate.
  - change (run_events E p (Tick now :: evs))
      with (run_events E (check_window_completion E now p) evs).
    rewrite tick_idle; [exact (IH Hi)|].
    unfold current_object. rewrite Hc. discriminate.
Qed.

Lemma current_persists E evs p :
  sound p -> is_Some (current_window p) ->
  is_Some (current_window (run_events E p evs)).
Proof.
  revert p. induction evs as [|ev evs IH]; intros p Hs Hc; [exact Hc|].
  change (run_events E p (ev :: evs)) with (run_events E (step E p ev) evs).
  apply IH; [apply sound_step, Hs|].
  pose proof (transition_step E p ev (sound_wf p Hs)) as Ht.
  remember (step E p ev) as p1 eqn:Hp1.
  destruct Ht as [description ts p' _ _ _ Hc' _ _ _
                 | description ts a w p' _ _ _ _ Hc' _ _ _
                 | now Hidle
                 | now a w s p' _ _ _ _ _ Hc' _ _ _];
    try (rewrite Hc'; eauto). exact Hc.
Qed.

Lemma origin_run E evs p :
  sound p -> current_window p = None ->
  match ingested evs with
  | [] => run_events E p evs = p
  | c0 :: _ =>
      is_Some (current_window (run_events E p evs))
      /\ start_time <$> head (timeline (run_events E p evs))
         = Some (timestamp c0)
  end.
Proof.
  intros Hs Hc. induction evs as [|[description ts | now] evs IH].
  - reflexivity.
  - rewrite ingested_cons. simpl.
    change (run_events E p (Ingest description ts :: evs))
      with (run_events E (ingest description ts p) evs).
    assert (Hs1 : sound (ingest description ts p))
      by apply (sound_step E p (Ingest description ts)), Hs.
    destruct (ingest_first description ts p Hc) as (Hh & _ & Hc' & _).
    simpl in Hh, Hc'. rewrite (sound_no_current p Hs Hc) in Hh. simpl in Hh.
    split.
    + apply current_persists; [exact Hs1 | rewrite Hc'; eauto].
    + rewrite (sound_timeline _ (sound_run_events E evs _ Hs1)).
      destruct (ranges_run E evs _ Hs1) as [[k Hk] _].
      rewrite Hh in Hk. simpl in Hk.
      destruct (heap (run_events E (ingest description ts p) evs)) as [|x h];
        [discriminate|].
      simpl in Hk |- *. injection Hk as Hx _.
      pose proof (range_add_caption
                    (CaptionWindow_init ts (window_duration p))
                    (CaptionEntry_init description ts)) as Hr.
      injection Hr as Hr _. rewrite Hx, Hr. reflexivity.
  - rewrite ingested_cons. simpl.
    change (run_events E p (Tick now :: evs))
      with (run_events E (check_window_completion E now p) evs).
    rewrite tick_idle by (unfold current_object; rewrite Hc; discriminate).
    exact IH.
Qed.

(** * Further properties of the capture loop *)

(** X1.  Every caption held by a window of the timeline is stamped inside
    that window's range. *)
Theorem stored_captions_lie_in_their_window (E : Externals) (key : string)
    (camera : Z) (d : float) (p0 : CaptionPostProcessor) (evs : list Event) :
  CaptionPostProcessor_init E key camera d = inr p0 ->
  forall w c,
    w ∈ timeline (run_events E p0 evs) -> c ∈ captions w ->
    (start_time w <=? timestamp c)%float = true
    /\ (timestamp c <? end_time w)%float = true.
Proof.
  intros Hinit w c Hw Hc.
  assert (Hs : sound (run_events E p0 evs))
    by (apply sound_run_events; eapply sound_init; exact Hinit).
  rewrite (sound_timeline _ Hs) in Hw.
  apply list_elem_of_lookup in Hw as [a Ha].
  apply andb_true_iff. apply (sound_members _ Hs a w c Ha Hc).
Qed.

Lemma stored_captions_lie_in_their_window_witness :
  CaptionPostProcessor_init Scenario.answering "key" 0 10
  = inr (Scenario.fresh 10)
  /\ forall w c,
       w ∈ timeline (run_events Scenario.answering (Scenario.fresh 10)
                       [Ingest "a desk" 0%float; Ingest "far" 12%float;
                        Tick 11; Ingest "a cup" 12%float]) ->
       c ∈ captions w ->
       (start_time w <=? timestamp c)%float = true
       /\ (timestamp c <? end_time w)%float = true.
Proof.
  split; [reflexivity|].
  apply (stored_captions_lie_in_their_window Scenario.answering "key" 0 10).
  reflexivity.
Defined.



(** X3.  Nothing is taken back, under every interleaving of the threads.
    After any sequence of writes of the program, after any schedule of
    thread steps and ticks, and after any sequence of ingests and ticks:
    every window object is still in the store at its address, with the
    same start and end, with the captions it had still first and in order,
    and summarised if it was; the window objects created since come after
    it; and [completed_windows] is the list it was, followed by what was
    appended since. *)
Theorem windows_are_append_only (E : Externals) (p : CaptionPostProcessor) :
  (forall xs : list Write, grown p (apply_writes p xs))
  /\ (forall (ts : list Thread) (sched : list Sched),
        grown p (proc (run_schedule E {| proc := p; threads := ts |} sched)))
  /\ (forall evs : list Event, grown p (run_events E p evs)).
Proof.
  assert (H : forall xs : list Write, grown p (apply_writes p xs)).
  { intros xs. split; [|split].
    - apply apply_writes_ranges.
    - apply apply_writes_completed.
    - intros a w Ha. apply apply_writes_later_state. exact Ha. }
  split; [exact H|]. split.
  - intros ts sched.
    destruct (run_schedule_writes E sched {| proc := p; threads := ts |})
      as [xs ->]. apply H.
  - intros evs. destruct (run_events_writes E evs p) as [xs ->]. apply H.
Qed.





Lemma prompted_length E p :
  length (prompted E p) <= length (completed_with_captions p).
Proof.
  unfold prompted, completed_with_captions.
  induction (objects (heap p) (completed_windows p)) as [|w l IH];
    [reflexivity|].
  destruct (decide (captions w <> [])) as [Hc|Hc].
  - rewrite (filter_cons_True (fun w => captions w <> [])) by exact Hc.
    destruct (decide (range_error E w = None)) as [Hr|Hr].
    + rewrite filter_cons_True by (split; assumption). simpl. lia.
    + rewrite filter_cons_False by tauto. simpl. lia.
  - rewrite (filter_cons_False (fun w => captions w <> [])) by exact Hc.
    rewrite filter_cons_False by tauto. exact IH.
Qed.

Lemma prompted_all E p :
  (forall w, w ∈ completed_with_captions p -> range_error E w = None) ->
  prompted E p = completed_with_captions p.
Proof.
  unfold prompted, completed_with_captions.
  induction (objects (heap p) (completed_windows p)) as [|w l IH];
    intros Hall; [reflexivity|].
  destruct (decide (captions w <> [])) as [Hc|Hc].
  - rewrite (filter_cons_True (fun w => captions w <> [])) in * by exact Hc.
    rewrite filter_cons_True by (split; [exact Hc | apply Hall; left]).
    f_equal. apply IH. intros x Hx. apply Hall. right. exact Hx.
  - rewrite (filter_cons_False (fun w => captions w <> [])) in * by exact Hc.
    rewrite filter_cons_False by tauto. apply IH. exact Hall.
Qed.

(** X6.  When the ingests and ticks run one at a time, the text prompts
    passed to the model after construction are exactly the summary prompts
    of the completed windows that hold captions and whose range can be
    formatted, in order of completion, each built from the captions the
    window holds: one prompt for each such window, none for an empty
    window, and none for a window whose range [fromtimestamp] refuses (its
    summary is then the error, set without a call).  So the prompts sent
    are at most as many as the completed windows that hold captions, and
    exactly their prompts when every range can be formatted.  The calls of
    [analyze_frame], which carry an image, are not among the prompts
    recorded. *)
Theorem one_prompt_per_window_with_captions (E : Externals) (key : string)
    (camera : Z) (d : float) (p0 : CaptionPostProcessor) (evs : list Event) :
  CaptionPostProcessor_init E key camera d = inr p0 ->
  let p := run_events E p0 evs in
  calls p = calls p0 ++ (summary_prompt E p0 <$> prompted E p)
  /\ length (calls p)
     <= length (calls p0) + length (completed_with_captions p)
  /\ ((forall w, w ∈ completed_with_captions p -> range_error E w = None) ->
      calls p
      = calls p0 ++ (summary_prompt E p0 <$> completed_with_captions p)).
Proof.
  intros Hinit p.
  assert (Hs : sound p0) by (eapply sound_init; exact Hinit).
  destruct (init_windows E _ _ _ _ Hinit) as (_ & Hl & Hh0 & _).
  assert (Hacc : accounted E (calls p0) p).
  { apply accounted_run; [exact Hs | eapply init_model; exact Hinit |].
    unfold accounted, prompted. rewrite Hl.
    symmetry. apply app_nil_r. }
  assert (Heq : calls p = calls p0 ++ (summary_prompt E p0 <$> prompted E p)).
  { unfold accounted in Hacc. rewrite Hacc. f_equal.
    apply list_fmap_ext. intros i x _.
    apply summary_prompt_ext; [|reflexivity|reflexivity].
    destruct (fixed_duration_run_events E evs p0 (sound_wf p0 Hs)) as [_ Hd].
    - intros a w Ha. rewrite Hh0, lookup_nil in Ha. discriminate.
    - exact Hd. }
  split; [exact Heq|]. split.
  - rewrite Heq, length_app, length_fmap.
    pose proof (prompted_length E p). lia.
  - intros Hall. rewrite Heq, (prompted_all E p Hall). reflexivity.
Qed.

Lemma one_prompt_per_window_with_captions_witness :
  CaptionPostProcessor_init Scenario.answering "key" 0 10
  = inr (Scenario.fresh 10)
  /\ let p := run_events Scenario.answering (Scenario.fresh 10)
                [Ingest "a desk" 0%float; Tick 35; Tick 35;
                 Ingest "a cup" 21%float; Tick 35] in
     calls p = calls (Scenario.fresh 10)
               ++ (summary_prompt Scenario.answering (Scenario.fresh 10)
                     <$> prompted Scenario.answering p)
     /\ length (calls p)
        <= length (calls (Scenario.fresh 10))
           + length (completed_with_captions p)
     /\ ((forall w, w ∈ completed_with_captions p ->
                    range_error Scenario.answering w = None) ->
         calls p
         = calls (Scenario.fresh 10)
           ++ (summary_prompt Scenario.answering (Scenario.fresh 10)
                 <$> completed_with_captions p)).
Proof.
  split; [reflexivity|].
  apply (one_prompt_per_window_with_captions Scenario.answering "key" 0 10).
  reflexivity.
Defined.

(** A window that ends after the year 9999, here with a window duration
    of 1e12 seconds: the prompt cannot be built, the model is not called
    and the summary is the error. *)
Example window_beyond_the_calendar :
  let p := run_events Scenario.answering (Scenario.fresh 1e12)
             [Ingest "a desk" 0%float; Tick 2e12] in
  calls p = calls (Scenario.fresh 1e12)
  /\ summary <$> heap p !! 0 = Some "Summary error: year is out of range"
  /\ length (completed_with_captions p) = 1
  /\ prompted Scenario.answering p = [].
Proof. vm_compute. repeat split. Qed.


(** * The live display *)

(** The fields a step of the capture loop never writes. *)
Lemma step_settings E p ev :
  api_key (step E p ev) = api_key p
  /\ camera_index (step E p ev) = camera_index p
  /\ running (step E p ev) = running p
  /\ latest_description (step E p ev)
     = match ev with
       | Ingest description _ => description
       | Tick _ => latest_description p
       end.
Proof.
  destruct ev as [description ts | now]; simpl.
  - unfold ingest, new_current_window, store. simpl.
    repeat case_match; simpl; repeat split; reflexivity.
  - unfold check_window_completion, complete_current_window, summarize_window,
      new_current_window, current_object, store.
    repeat case_match; simpl; repeat split; reflexivity.
Qed.

Lemma run_events_settings E evs p :
  api_key (run_events E p evs) = api_key p
  /\ camera_index (run_events E p evs) = camera_index p
  /\ running (run_events E p evs) = running p
  /\ latest_description (run_events E p evs)
     = default (latest_description p) (last (offered_descriptions evs)).
Proof.
  revert p. induction evs as [|ev evs IH]; intros p; [repeat split|].
  change (run_events E p (ev :: evs)) with (run_events E (step E p ev) evs).
  destruct (IH (step E p ev)) as (-> & -> & -> & ->).
  destruct (step_settings E p ev) as (-> & -> & -> & ->).
  repeat split.
  destruct ev as [description ts | now]; simpl; [|reflexivity].
  destruct (offered_descriptions evs) as [|x l] eqn:Eo; [reflexivity|].
  simpl. rewrite last_cons. destruct (last l); reflexivity.
Qed.

Lemma try_models_settings E names p p' :
  try_models E names p = inr p' ->
  api_key p' = api_key p /\ camera_index p' = camera_index p
  /\ latest_description p' = latest_description p.
Proof.
  revert p. induction names as [|n names IH]; intros p H; simpl in H.
  - discriminate.
  - destruct (GenerativeModel E n) as [e|m]; [exact (IH _ H)|].
    destruct (generate_content E m _ "Hello") as [t|e].
    + destruct (String.eqb t "").
      * destruct (IH _ H) as (-> & -> & ->). repeat split.
      * injection H as <-. repeat split.
    + destruct (IH _ H) as (-> & -> & ->). repeat split.
Qed.

Lemma last_objects h l a w :
  (forall b, b ∈ l -> is_Some (h !! b)) ->
  last l = Some a -> h !! a = Some w -> last (objects h l) = Some w.
Proof.
  intros Hv Hl Ha.
  destruct l as [|x l0] using rev_ind; [discriminate|].
  rewrite last_snoc in Hl. injection Hl as ->.
  rewrite objects_app, (objects_single h a w Ha). apply last_snoc.
Qed.

(** X7.  The display text of a running processor.  [get_display_text]
    raises exactly when there is a current window whose range
    [fromtimestamp] refuses; otherwise it returns its lines joined by line
    breaks.  The first line shows the description produced last, as
    produced, whether or not its caption was stored; the two lines about
    the current window are there as soon as a caption has been offered;
    and as soon as a window is completed the last line shows the summary
    of the window completed last. *)
Theorem display_shows_latest_state (E : Externals) (key : string)
    (camera : Z) (d : float) (p0 : CaptionPostProcessor) (evs : list Event) :
  CaptionPostProcessor_init E key camera d = inr p0 ->
  let p := run_events E p0 evs in
  (forall e, get_display_text E p = inl e
             <-> exists w, current_object p = Some w
                           /\ range_error E w = Some e)
  /\ (forall display_text, get_display_text E p = inr display_text ->
        display_text = Py.join Py.newline (display_lines E p))
  /\ head (display_lines E p)
     = Some ("Current: "
             +:+ default "Initializing..." (last (offered_descriptions evs)))
  /\ length (display_lines E p)
     = 1 + (match ingested evs with [] => 0 | _ => 2 end)
         + (match completed_windows p with [] => 0 | _ => 1 end)
  /\ (forall w, last (objects (heap p) (completed_windows p)) = Some w ->
        last (display_lines E p) = Some ("Latest Summary: " +:+ summary w)).
Proof.
  intros Hinit p.
  assert (Hs0 : sound p0) by (eapply sound_init; exact Hinit).
  assert (Hwf : wf p) by apply wf_run_events, (sound_wf p0 Hs0).
  destruct (init_windows E _ _ _ _ Hinit) as (Hc0 & Hl0 & Hh0 & _).
  assert (Hlatest : forall a, last (completed_windows p) = Some a ->
            exists w, heap p !! a = Some w /\ summarized w = true
                      /\ last (objects (heap p) (completed_windows p)) = Some w).
  { intros a Ha.
    destruct (wf_completed p Hwf a) as (w & Hw & Hsum).
    { apply last_Some in Ha as [l' ->]. apply elem_of_app. right. left. }
    exists w. repeat split; try assumption.
    apply (last_objects _ _ a); [|exact Ha|exact Hw].
    intros b Hb. destruct (wf_completed p Hwf b Hb) as (x & Hx & _). eauto. }
  split; [|split; [|split; [|split]]].
  - intros e. unfold get_display_text.
    destruct (current_object p) as [w|].
    + destruct (range_error E w) as [e'|] eqn:Er; split.
      * intros [= <-]. exists w. split; [reflexivity | exact Er].
      * intros (w' & [= <-] & Hr). congruence.
      * discriminate.
      * intros (w' & [= <-] & Hr). congruence.
    + split; [discriminate|]. intros (w' & Hw' & _). discriminate.
  - intros display_text. unfold get_display_text.
    destruct (current_object p) as [w|];
      [destruct (range_error E w)|]; congruence.
  - unfold display_lines, p. simpl.
    destruct (run_events_settings E evs p0) as (_ & _ & _ & ->).
    apply try_models_settings in Hinit as (_ & _ & ->). reflexivity.
  - unfold display_lines. rewrite !length_app. simpl.
    pose proof (origin_run E evs p0 Hs0 Hc0) as Ho. fold p in Ho.
    assert (Hwin : length (match current_object p with
                           | Some w =>
                               ["Window: " +:+ get_timestamp_range E w;
                                "Captions in window: "
                                +:+ pretty (length (captions w))]
                           | None => []
                           end)
                   = match ingested evs with [] => 0 | _ => 2 end).
    { unfold current_object. destruct (ingested evs) as [|c0 cs].
      - rewrite Ho, Hc0. reflexivity.
      - destruct Ho as [[a Ha] _]. rewrite Ha.
        destruct (wf_current p Hwf a Ha) as (w & -> & _). reflexivity. }
    rewrite Hwin. f_equal. f_equal.
    destruct (last (completed_windows p)) as [a|] eqn:Hlast.
    + destruct (Hlatest a eq_refl) as (w & -> & -> & _).
      destruct (completed_windows p); [discriminate|reflexivity].
    + apply last_None in Hlast. rewrite Hlast. reflexivity.
  - intros w Hw. unfold display_lines.
    destruct (last (completed_windows p)) as [a|] eqn:Hlast.
    + destruct (Hlatest a eq_refl) as (w' & Hw' & Hsum & Hlw).
      rewrite Hw in Hlw. injection Hlw as <-.
      rewrite Hw', Hsum, app_assoc. apply last_snoc.
    + apply last_None in Hlast. rewrite Hlast in Hw. discriminate.
Qed.

Lemma display_shows_latest_state_witness :
  CaptionPostProcessor_init Scenario.answering "key" 0 10
  = inr (Scenario.fresh 10)
  /\ let evs := [Ingest "a desk" 0%float; Tick 35; Ingest " late " 5%float] in
     let p := run_events Scenario.answering (Scenario.fresh 10) evs in
     (forall e, get_display_text Scenario.answering p = inl e
                <-> exists w, current_object p = Some w
                              /\ range_error Scenario.answering w = Some e)
     /\ (forall display_text,
           get_display_text Scenario.answering p = inr display_text ->
           display_text
           = Py.join Py.newline (display_lines Scenario.answering p))
     /\ head (display_lines Scenario.answering p)
        = Some ("Current: "
                +:+ default "Initializing..." (last (offered_descriptions evs)))
     /\ length (display_lines Scenario.answering p)
        = 1 + (match ingested evs with [] => 0 | _ => 2 end)
            + (match completed_windows p with [] => 0 | _ => 1 end)
     /\ (forall w, last (objects (heap p) (completed_windows p)) = Some w ->
           last (display_lines Scenario.answering p)
           = Some ("Latest Summary: " +:+ summary w)).
Proof.
  split; [reflexivity|].
  apply (display_shows_latest_state Scenario.answering "key" 0 10).
  reflexivity.
Defined.

(** The display of a processor whose windows last 1e12 seconds: the
    current window ends after the year 9999 and [get_display_text]
    raises. *)
Example display_beyond_the_calendar :
  get_display_text Scenario.answering
    (run_events Scenario.answering (Scenario.fresh 1e12)
       [Ingest "a desk" 0%float])
  = inl "year is out of range".
Proof. reflexivity. Qed.

(** * The overlay *)

Lemma py_split_nonempty sep s : py_split sep s <> [].
Proof.
  destruct s as [|c s]; simpl; [discriminate|].
  destruct (Ascii.eqb c sep); [discriminate|].
  destruct (py_split sep s); discriminate.
Qed.

Lemma py_split_single_cons sep c x :
  py_split sep (String c x) = [String c x] ->
  Ascii.eqb c sep = false /\ py_split sep x = [x].
Proof.
  simpl. destruct (Ascii.eqb c sep).
  - intros [=].
  - destruct (py_split sep x) as [|x0 rest] eqn:Ex.
    + exfalso. exact (py_split_nonempty sep x Ex).
    + intros [= -> ->]. split; reflexivity.
Qed.

(** Splitting after a first line that holds no separator. *)
Lemma py_split_line_app sep x y :
  py_split sep x = [x] ->
  py_split sep (x +:+ String sep y) = x :: py_split sep y.
Proof.
  induction x as [|c x IH]; intros Hx.
  - simpl. rewrite Ascii.eqb_refl. reflexivity.
  - apply py_split_single_cons in Hx as [Hc Hx].
    change (String c x +:+ String sep y) with (String c (x +:+ String sep y)).
    simpl. rewrite Hc, (IH Hx). reflexivity.
Qed.

(** [sep.join(lines).split(sep)] gives back [lines] when each of them is
    a single line. *)
Lemma py_split_join sep lines :
  lines <> [] ->
  Forall (fun l => py_split sep l = [l]) lines ->
  py_split sep (Py.join (String sep "") lines) = lines.
Proof.
  intros Hne Hall. induction Hall as [|x rest Hx Hrest IH]; [contradiction|].
  destruct rest as [|y rest]; [exact Hx|].
  change (Py.join (String sep "") (x :: y :: rest))
    with (x +:+ String sep (Py.join (String sep "") (y :: rest))).
  rewrite (py_split_line_app sep x _ Hx), IH by discriminate. reflexivity.
Qed.

(** The texts drawn for a list of lines: the non-blank lines, stripped,
    one every 25 pixels from [y]. *)
Lemma texts_overlay_lines text_width lines y :
  texts (overlay_lines text_width lines y)
  = imap (fun k t => (t, 10%Z, (y + 25 * Z.of_nat k)%Z))
      (filter (fun t => t <> "") (Py.strip <$> lines)).
Proof.
  revert y. induction lines as [|line lines IH]; intros y; [reflexivity|].
  rewrite fmap_cons. simpl.
  destruct (String.eqb (Py.strip line) "") eqn:Eb.
  - apply String.eqb_eq in Eb.
    rewrite filter_cons_False by (intros H; apply H; exact Eb). apply IH.
  - apply String.eqb_neq in Eb.
    rewrite filter_cons_True by exact Eb.
    rewrite imap_cons. simpl. unfold texts in *. simpl.
    rewrite Z.add_0_r. f_equal. rewrite IH.
    apply imap_ext. intros k t _. simpl. f_equal. lia.
Qed.

Lemma display_lines_length E p :
  1 <= length (display_lines E p) <= 4.
Proof.
  unfold display_lines. rewrite !length_app. simpl.
  repeat case_match; simpl; lia.
Qed.

(** X8.  The loop that draws the display text on a frame draws at most
    eight texts, all at x = 10, the k-th one at y = 30 + 25 k whatever
    blank lines precede it; each text is non-empty and is one of the first
    eight lines of the display text, stripped. *)
Theorem overlay_layout (text_width : string -> Z) (display_text : string) :
  let shown := take 8 (py_split (ascii_of_nat 10) display_text) in
  let ts := texts (overlay text_width display_text) in
  length ts <= 8
  /\ forall k t x y,
       ts !! k = Some (t, x, y) ->
       t <> "" /\ x = 10%Z /\ y = (30 + 25 * Z.of_nat k)%Z
       /\ exists line, line ∈ shown /\ t = Py.strip line.
Proof.
  intros shown ts. unfold ts, overlay. fold shown.
  rewrite texts_overlay_lines. split.
  - rewrite length_imap.
    etransitivity; [apply length_filter|].
    rewrite length_fmap. unfold shown. rewrite length_take. lia.
  - intros k t x y Hk.
    apply list_lookup_imap_Some in Hk as (t' & Ht' & [= <- <- <-]).
    apply list_elem_of_lookup_2, list_elem_of_filter in Ht' as [Hne Hin].
    apply list_elem_of_fmap in Hin as (line & -> & Hline).
    repeat split; [exact Hne|]. exists line. split; [exact Hline|reflexivity].
Qed.

(** X9.  When [get_display_text] returns and every line of the display is
    a single line (no description or summary holds a line break), joining
    the lines and splitting the text again gives the same lines, none is
    cut off by the limit of eight, and the overlay shows exactly the
    non-blank ones. *)
Theorem overlay_shows_display_lines (E : Externals) (text_width : string -> Z)
    (p : CaptionPostProcessor) (display_text : string) :
  get_display_text E p = inr display_text ->
  Forall (fun l => py_split (ascii_of_nat 10) l = [l]) (display_lines E p) ->
  py_split (ascii_of_nat 10) display_text = display_lines E p
  /\ texts (overlay text_width display_text)
     = imap (fun k t => (t, 10%Z, (30 + 25 * Z.of_nat k)%Z))
         (filter (fun t => t <> "") (Py.strip <$> display_lines E p)).
Proof.
  intros Hget Hall.
  assert (Htext : display_text = Py.join Py.newline (display_lines E p)).
  { unfold get_display_text in Hget.
    destruct (current_object p) as [w|];
      [destruct (range_error E w)|]; congruence. }
  assert (Hsplit : py_split (ascii_of_nat 10) display_text
                   = display_lines E p).
  { rewrite Htext. apply py_split_join; [|exact Hall].
    pose proof (display_lines_length E p) as Hlen.
    destruct (display_lines E p); [simpl in Hlen; lia | discriminate]. }
  split; [exact Hsplit|].
  unfold overlay. rewrite Hsplit, take_ge
    by (pose proof (display_lines_length E p); lia).
  apply texts_overlay_lines.
Qed.

Lemma overlay_shows_display_lines_witness :
  let E := Scenario.answering in
  let p := run_events E (Scenario.fresh 10)
             [Ingest "a desk" 0%float; Tick 35; Ingest "   " 12%float] in
  let display_text := Py.join Py.newline (display_lines E p) in
  (get_display_text E p = inr display_text
   /\ Forall (fun l => py_split (ascii_of_nat 10) l = [l]) (display_lines E p))
  /\ py_split (ascii_of_nat 10) display_text = display_lines E p
  /\ texts (overlay (fun t => Z.of_nat (String.length t) * 11)%Z display_text)
     = imap (fun k t => (t, 10%Z, (30 + 25 * Z.of_nat k)%Z))
         (filter (fun t => t <> "") (Py.strip <$> display_lines E p)).
Proof.
  intros E p display_text.
  assert (H : Forall (fun l => py_split (ascii_of_nat 10) l = [l])
                (display_lines E p))
    by (vm_compute; repeat constructor).
  assert (Hget : get_display_text E p = inr display_text) by reflexivity.
  split; [split; [exact Hget | exact H]|].
  apply (overlay_shows_display_lines E
           (fun t => Z.of_nat (String.length t) * 11)%Z p display_text Hget H).
Defined.

(** * Frame management *)

Lemma schedule_all_cons t rest c :
  schedule_all (t :: rest) c
  = (fst (schedule_all rest (fst (schedule_analysis t c))),
     if snd (schedule_analysis t c)
     then t :: snd (schedule_all rest (fst (schedule_analysis t c)))
     else snd (schedule_all rest (fst (schedule_analysis t c)))).
Proof.
  simpl. destruct (schedule_analysis t c) as [c1 started]. simpl.
  destruct (schedule_all rest c1). reflexivity.
Qed.

(** X10.  Over any sequence of loop iterations, [frame_count] grows by the
    number of analyses started; an analysis starts only at a reading that
    is at least [frame_interval] after the previous start (after the
    initial [last_frame_time] for the first one), as the float subtraction
    measures it; and [last_frame_time] is the reading of the last start. *)
Theorem analyses_are_spaced (readings : list float) (c : FrameClock) :
  let c' := fst (schedule_all readings c) in
  let started := snd (schedule_all readings c) in
  frame_count c' = (frame_count c + Z.of_nat (length started))%Z
  /\ started `sublist_of` readings
  /\ spaced (frame_interval c) started
  /\ (forall t, head started = Some t -> frame_due t c = true)
  /\ last_frame_time c' = default (last_frame_time c) (last started)
  /\ frame_interval c' = frame_interval c.
Proof.
  revert c. induction readings as [|t rest IH]; intros c.
  - simpl. repeat split; try lia; try reflexivity. intros t [=].
  - rewrite schedule_all_cons. simpl.
    unfold schedule_analysis. destruct (frame_due t c) eqn:Hdue; simpl.
    + specialize (IH {| frame_count := frame_count c + 1;
                        last_frame_time := t;
                        frame_interval := frame_interval c |}).
      simpl in IH. destruct IH as (Hcount & Hsub & Hsp & Hhead & Hlast & Hint).
      repeat split.
      * rewrite Hcount. lia.
      * apply sublist_skip. exact Hsub.
      * destruct (snd (schedule_all rest _)) as [|t2 later] eqn:El;
          [exact I|].
        split; [|exact Hsp]. apply (Hhead t2 eq_refl).
      * intros t' [= <-]. exact Hdue.
      * rewrite Hlast.
        destruct (snd (schedule_all rest _)) as [|t2 later]; [reflexivity|].
        change (last (t :: t2 :: later)) with (last (t2 :: later)).
        destruct (last (t2 :: later)) eqn:El; [reflexivity|].
        apply last_None in El. discriminate.
      * exact Hint.
    + destruct (IH c) as (Hcount & Hsub & Hsp & Hhead & Hlast & Hint).
      repeat split; try assumption. apply sublist_cons. exact Hsub.
Qed.


(** * Construction *)

Lemma try_models_spec E names q j :
  calls q = replicate j "Hello" ->
  match try_models E names q with
  | inl e =>
      e = Py.Exception no_model_message
      /\ forall n, n ∈ names -> exists log, usable E log n = false
  | inr p =>
      exists n k m,
        n ∈ names /\ j <= k /\ k < j + length names
        /\ usable E (replicate k "Hello") n = true
        /\ GenerativeModel E n = inr m
        /\ model p = Some m
        /\ calls p = replicate (S k) "Hello"
  end.
Proof.
  revert q j. induction names as [|n names IH]; intros q j Hq; simpl.
  - split; [reflexivity|]. intros n Hn. inversion Hn.
  - assert (Hcons : forall (P : string -> Prop),
              (exists log, usable E log n = false) ->
              (forall n', n' ∈ names -> exists log, usable E log n' = false) ->
              forall n', n' ∈ n :: names -> exists log, usable E log n' = false).
    { intros _ Hn Hrest n' Hin. apply elem_of_cons in Hin as [-> | Hin]; auto. }
    destruct (GenerativeModel E n) as [e|m] eqn:Eg.
    + specialize (IH q j Hq).
      destruct (try_models E names q) as [e'|p].
      * destruct IH as [-> Hall]. split; [reflexivity|].
        apply (Hcons (fun _ => True)); [|exact Hall].
        exists []. unfold usable. rewrite Eg. reflexivity.
      * destruct IH as (n' & k & m' & Hin & Hjk & Hk & Hrest).
        exists n', k, m'.
        repeat split; try tauto; try lia; right; exact Hin.
    + simpl. rewrite Hq.
      assert (Hq2 : calls (with_calls (replicate j "Hello" ++ ["Hello"])
                             (with_model (Some m) q))
                    = replicate (S j) "Hello")
        by (simpl; rewrite <- replicate_cons_app; reflexivity).
      destruct (generate_content E m (replicate j "Hello") "Hello") as [t|e]
        eqn:Ec.
      * destruct (String.eqb t "") eqn:Et.
        -- specialize (IH _ (S j) Hq2).
           destruct (try_models E names _) as [e'|p].
           ++ destruct IH as [-> Hall]. split; [reflexivity|].
              apply (Hcons (fun _ => True)); [|exact Hall].
              exists (replicate j "Hello"). unfold usable.
              rewrite Eg, Ec, Et. reflexivity.
           ++ destruct IH as (n' & k & m' & Hin & Hjk & Hk & Hrest).
              exists n', k, m'.
              repeat split; try tauto; try lia; right; exact Hin.
        -- exists n, j, m.
           split; [left|]. split; [lia|]. split; [lia|].
           split; [unfold usable; rewrite Eg, Ec, Et; reflexivity|].
           split; [exact Eg|]. split; [reflexivity | exact Hq2].
      * specialize (IH _ (S j) Hq2).
        destruct (try_models E names _) as [e'|p].
        -- destruct IH as [-> Hall]. split; [reflexivity|].
           apply (Hcons (fun _ => True)); [|exact Hall].
           exists (replicate j "Hello"). unfold usable.
           rewrite Eg, Ec. reflexivity.
        -- destruct IH as (n' & k & m' & Hin & Hjk & Hk & Hrest).
           exists n', k, m'.
           repeat split; try tauto; try lia; right; exact Hin.
Qed.

(** X11.  Construction fails only with the exception "Could not initialize
    any Gemini model", and then every listed model was rejected by its
    probe.  When it succeeds, the model kept is the handle of a listed
    name whose probe returned non-empty text; the only prompts sent are
    the probes "Hello", the accepted one being the last, and there are at
    most five of them. *)
Theorem initialize_gemini_outcomes (E : Externals) (key : string)
    (camera : Z) (d : float) :
  match CaptionPostProcessor_init E key camera d with
  | inl e =>
      e = Py.Exception no_model_message
      /\ forall n, n ∈ model_names -> exists log, usable E log n = false
  | inr p =>
      exists n k m,
        n ∈ model_names /\ k < 5
        /\ usable E (replicate k "Hello") n = true
        /\ GenerativeModel E n = inr m
        /\ model p = Some m
        /\ calls p = replicate (S k) "Hello"
  end.
Proof.
  unfold CaptionPostProcessor_init, initialize_gemini.
  match goal with
  | |- match try_models E _ ?q with _ => _ end =>
      pose proof (try_models_spec E model_names q 0 eq_refl) as H;
      destruct (try_models E model_names q) as [e|p]
  end.
  - exact H.
  - destruct H as (n & k & m & Hin & _ & Hk & Hrest).
    exists n, k, m. repeat split; try tauto; exact Hk.
Qed.

Lemma try_models_skip E pre q :
  (forall n log, n ∈ pre -> usable E log n = false) ->
  exists q',
    (forall rest, try_models E (pre ++ rest) q = try_models E rest q')
    /\ calls q'
       = calls q
         ++ replicate
              (length (filter (fun n => constructible E n = true) pre))
              "Hello".
Proof.
  revert q. induction pre as [|n pre IH]; intros q Hall.
  - exists q. split; [reflexivity|]. symmetry. apply app_nil_r.
  - assert (Hpre : forall n' log, n' ∈ pre -> usable E log n' = false)
      by (intros n' log Hin; apply Hall; right; exact Hin).
    pose proof (Hall n (calls q) (list_elem_of_here n pre)) as Hn.
    unfold usable in Hn.
    destruct (GenerativeModel E n) as [e|m] eqn:Eg.
    + destruct (IH q Hpre) as (q' & Heq & Hcalls).
      exists q'. split.
      * intros rest. simpl. rewrite Eg. apply Heq.
      * rewrite filter_cons_False
          by (unfold constructible; rewrite Eg; discriminate).
        exact Hcalls.
    + destruct (IH (with_calls (calls q ++ ["Hello"]) (with_model (Some m) q))
                  Hpre) as (q' & Heq & Hcalls).
      exists q'. split.
      * intros rest. simpl. rewrite Eg. simpl.
        destruct (generate_content E m (calls q) "Hello") as [t|e];
          [|apply Heq].
        destruct (String.eqb t ""); [apply Heq | discriminate].
      * rewrite filter_cons_True
          by (unfold constructible; rewrite Eg; reflexivity).
        rewrite Hcalls. simpl. rewrite <- app_assoc. reflexivity.
Qed.

(** The loop asks [GenerativeModel] about the listed names only. *)
Lemma try_models_ext E E' names q :
  (forall n, n ∈ names -> GenerativeModel E' n = GenerativeModel E n) ->
  (forall m log prompt,
     generate_content E' m log prompt = generate_content E m log prompt) ->
  try_models E' names q = try_models E names q.
Proof.
  intros Hmodel Hgen. revert q.
  induction names as [|n names IH]; intros q; [reflexivity|].
  assert (IH' : forall q, try_models E' names q = try_models E names q)
    by (apply IH; intros n' Hin; apply Hmodel; right; exact Hin).
  simpl. rewrite (Hmodel n) by left.
  destruct (GenerativeModel E n) as [e|m]; [apply IH'|].
  simpl. rewrite Hgen.
  destruct (generate_content E m (calls q) "Hello") as [t|e]; [|apply IH'].
  destruct (String.eqb t ""); [apply IH' | reflexivity].
Qed.

(** It stops at the first model it accepts. *)
Lemma try_models_stops E pre n post q :
  (forall n' log, n' ∈ pre -> usable E log n' = false) ->
  (forall log, usable E log n = true) ->
  try_models E (pre ++ n :: post) q = try_models E (pre ++ [n]) q.
Proof.
  intros Hpre Hn.
  destruct (try_models_skip E pre q Hpre) as (q' & Heq & _).
  rewrite !Heq. specialize (Hn (calls q')). unfold usable in Hn. simpl.
  destruct (GenerativeModel E n) as [e|m]; [discriminate|]. simpl.
  destruct (generate_content E m (calls q') "Hello") as [t|e];
    [|discriminate].
  destruct (String.eqb t ""); [discriminate | reflexivity].
Qed.

(** X12.  The models are tried in the order of the list, and the loop
    stops at the first one it accepts.  When every model before [n] in the
    list is rejected and [n] is accepted, whatever was asked before,
    construction succeeds with the handle of [n]; the prompts sent are one
    probe for each model before [n] that could be constructed and the
    probe of [n], so no model after [n] is probed; and the outcome is the
    same whatever [GenerativeModel] would give for the names after [n]. *)
Theorem first_usable_model_is_kept (E : Externals) (key : string)
    (camera : Z) (d : float) (pre post : list string) (n m : string) :
  model_names = pre ++ n :: post ->
  (forall n' log, n' ∈ pre -> usable E log n' = false) ->
  (forall log, usable E log n = true) ->
  GenerativeModel E n = inr m ->
  exists p,
    CaptionPostProcessor_init E key camera d = inr p
    /\ model p = Some m
    /\ calls p
       = replicate
           (S (length (filter (fun n' => constructible E n' = true) pre)))
           "Hello"
    /\ forall E',
         (forall n', n' ∈ pre ++ [n] ->
                     GenerativeModel E' n' = GenerativeModel E n') ->
         (forall m' log prompt,
            generate_content E' m' log prompt
            = generate_content E m' log prompt) ->
         CaptionPostProcessor_init E' key camera d = inr p.
Proof.
  intros Hnames Hpre Hn Hm.
  assert (Hinit : exists p,
            CaptionPostProcessor_init E key camera d = inr p
            /\ model p = Some m
            /\ calls p
               = replicate
                   (S (length (filter (fun n' => constructible E n' = true)
                                 pre)))
                   "Hello").
  { unfold CaptionPostProcessor_init, initialize_gemini. rewrite Hnames.
    match goal with
    | |- exists p, try_models E _ ?q = _ /\ _ =>
        destruct (try_models_skip E pre q Hpre) as (q' & Heq & Hcalls)
    end.
    rewrite Heq. simpl in Hcalls.
    specialize (Hn (calls q')). unfold usable in Hn.
    simpl. rewrite Hm in Hn |- *.
    destruct (generate_content E m (calls q') "Hello") as [t|e];
      [|discriminate].
    destruct (String.eqb t ""); [discriminate|].
    eexists. split; [reflexivity|]. split; [reflexivity|].
    simpl. rewrite Hcalls. rewrite <- replicate_cons_app. reflexivity. }
  destruct Hinit as (p & Hp & Hmodel & Hcalls).
  exists p. split; [exact Hp|]. split; [exact Hmodel|]. split; [exact Hcalls|].
  intros E' Hsame Hgen.
  assert (Husable : forall log n', n' ∈ pre ++ [n] ->
            usable E' log n' = usable E log n').
  { intros log n' Hin. unfold usable. rewrite (Hsame n' Hin).
    destruct (GenerativeModel E n'); [reflexivity|]. rewrite Hgen.
    reflexivity. }
  rewrite <- Hp.
  unfold CaptionPostProcessor_init, initialize_gemini. rewrite Hnames.
  rewrite (try_models_stops E' pre n post), (try_models_stops E pre n post);
    try assumption.
  - apply try_models_ext; assumption.
  - intros n' log Hin. rewrite Husable by (apply elem_of_app; left; exact Hin).
    apply Hpre. exact Hin.
  - intros log. rewrite Husable
      by (apply elem_of_app; right; apply list_elem_of_singleton; reflexivity).
    apply Hn.
Qed.

Lemma first_usable_model_is_kept_witness :
  (model_names = ["gemini-2.0-flash"; "gemini-2.5-flash"]
                 ++ "gemini-2.0-flash-exp"
                    :: ["gemini-flash-latest"; "gemini-pro-latest"]
   /\ (forall n' log, n' ∈ ["gemini-2.0-flash"; "gemini-2.5-flash"] ->
         usable Stubs.experimental_only log n' = false)
   /\ (forall log,
         usable Stubs.experimental_only log "gemini-2.0-flash-exp" = true)
   /\ GenerativeModel Stubs.experimental_only "gemini-2.0-flash-exp"
      = inr "gemini-2.0-flash-exp")
  /\ exists p,
       CaptionPostProcessor_init Stubs.experimental_only "key" 0 30 = inr p
       /\ model p = Some "gemini-2.0-flash-exp"
       /\ calls p = ["Hello"; "Hello"]
       /\ forall E',
            (forall n', n' ∈ ["gemini-2.0-flash"; "gemini-2.5-flash"]
                             ++ ["gemini-2.0-flash-exp"] ->
                        GenerativeModel E' n'
                        = GenerativeModel Stubs.experimental_only n') ->
            (forall m' log prompt,
               generate_content E' m' log prompt
               = generate_content Stubs.experimental_only m' log prompt) ->
            CaptionPostProcessor_init E' "key" 0 30 = inr p.
Proof.
  assert (Hpre : forall n' log, n' ∈ ["gemini-2.0-flash"; "gemini-2.5-flash"] ->
                   usable Stubs.experimental_only log n' = false).
  { intros n' log Hin. repeat (apply elem_of_cons in Hin as [-> | Hin]);
      [reflexivity | reflexivity | inversion Hin]. }
  split; [split; [reflexivity | split; [exact Hpre | split; reflexivity]] |].
  apply (first_usable_model_is_kept Stubs.experimental_only "key" 0 30
           ["gemini-2.0-flash"; "gemini-2.5-flash"]
           ["gemini-flash-latest"; "gemini-pro-latest"]
           "gemini-2.0-flash-exp" "gemini-2.0-flash-exp");
    [reflexivity | exact Hpre | reflexivity | reflexivity].
Defined.

Lemma initialize_gemini_failure E key camera d e :
  CaptionPostProcessor_init E key camera d = inl e ->
  e = Py.Exception no_model_message.
Proof.
  unfold CaptionPostProcessor_init, initialize_gemini.
  match goal with
  | |- try_models E _ ?q = _ -> _ =>
      pose proof (try_models_spec E model_names q 0 eq_refl) as H
  end.
  intros Hf. rewrite Hf in H. apply H.
Qed.

(** * main *)

Lemma step_duration E p ev : window_duration (step E p ev) = window_duration p.
Proof.
  destruct ev as [description ts | now]; simpl.
  - unfold ingest, new_current_window, store. simpl.
    repeat case_match; reflexivity.
  - unfold check_window_completion, complete_current_window, summarize_window,
      new_current_window, current_object, store.
    repeat case_match; reflexivity.
Qed.

Lemma run_events_duration E evs p :
  window_duration (run_events E p evs) = window_duration p.
Proof.
  revert p. induction evs as [|ev evs IH]; intros p; [reflexivity|].
  change (run_events E p (ev :: evs)) with (run_events E (step E p ev) evs).
  rewrite IH. apply step_duration.
Qed.

Lemma run_raises E evs p :
  run E evs p
  = Raised (Py.AttributeError no_attribute_message)
      (capture_and_display E evs (with_running true p)).
Proof.
  unfold run.
  replace (lookup_attribute "process_captions")
    with (inl (B := unit) (Py.AttributeError no_attribute_message))
    by (vm_compute; reflexivity).
  reflexivity.
Qed.

(** X13.  How [main] ends.  A [KeyboardInterrupt] before the [try] block
    leaves [main].  Otherwise, with the placeholder as the API key [main]
    prints three hints and constructs nothing; if construction fails, the
    exception "Could not initialize any Gemini model" leaves [main], which
    does not catch it.  Otherwise [main] returns normally after [run],
    having printed the six lines of its banner and one more: "Shutting
    down..." after a [KeyboardInterrupt] in [run]; else "Error: " with the
    message of the exception of [run], which is that of [cleanup] if it
    raised and otherwise the missing attribute [process_captions], never a
    report; the processor was then built from the resolved key, camera and
    window duration and [running] is false again.  With [GEMINI_API_KEY]
    missing from the environment and no (or an empty) [--api-key], the
    placeholder case applies. *)
Theorem main_outcomes (E : Externals) (cfg : Config) (args : Args)
    (evs : list Event) (course : Course) :
  match main E cfg args evs course with
  | MainInterrupted => course = InterruptBeforeRun
  | MainRefused printed =>
      course <> InterruptBeforeRun
      /\ resolve_api_key cfg args = "YOUR_API_KEY_HERE" /\ length printed = 3
  | MainUncaught e =>
      course <> InterruptBeforeRun
      /\ resolve_api_key cfg args <> "YOUR_API_KEY_HERE"
      /\ e = Py.Exception no_model_message
  | MainShutDown printed =>
      course = InterruptInRun
      /\ resolve_api_key cfg args <> "YOUR_API_KEY_HERE"
      /\ length printed = 7
      /\ last printed = Some (Py.newline +:+ "Shutting down...")
  | MainReturned printed p interval =>
      (course = Undisturbed \/ exists msg, course = CleanupRaises msg)
      /\ resolve_api_key cfg args <> "YOUR_API_KEY_HERE"
      /\ length printed = 7
      /\ last printed
         = Some ("Error: "
                 +:+ match course with
                     | CleanupRaises msg => msg
                     | _ => no_attribute_message
                     end)
      /\ api_key p = resolve_api_key cfg args
      /\ camera_index p = resolve_camera cfg args
      /\ window_duration p = resolve_window_duration args
      /\ interval = resolve_interval cfg args
      /\ running p = false
  end
  /\ (forall env,
        GEMINI_API_KEY cfg = config_api_key env ->
        env !! "GEMINI_API_KEY" = None ->
        arg_api_key args = None \/ arg_api_key args = Some "" ->
        course <> InterruptBeforeRun ->
        exists printed, main E cfg args evs course = MainRefused printed).
Proof.
  split.
  - assert (Hcases : course = InterruptBeforeRun
                     \/ course <> InterruptBeforeRun)
      by (destruct course; [right | right | left | right]; congruence).
    destruct Hcases as [-> | Hcourse]; [reflexivity|].
    unfold main.
    destruct (String.eqb (resolve_api_key cfg args) "YOUR_API_KEY_HERE") eqn:Ek.
    + apply String.eqb_eq in Ek.
      destruct course; try contradiction; repeat split; assumption.
    + apply String.eqb_neq in Ek.
      pose proof (initialize_gemini_failure E (resolve_api_key cfg args)
                    (resolve_camera cfg args) (resolve_window_duration args))
        as Hfail.
      destruct (CaptionPostProcessor_init E (resolve_api_key cfg args)
                  (resolve_camera cfg args) (resolve_window_duration args))
        as [e|p] eqn:Hinit.
      * destruct course; try contradiction;
          (repeat split; [exact Hcourse | exact Ek | exact (Hfail e eq_refl)]).
      * destruct (init_windows E _ _ _ _ Hinit) as (_ & _ & _ & Hd).
        apply try_models_settings in Hinit as (Hkey & Hcam & _).
        assert (Hp : let p' := capture_and_display E evs (with_running true p) in
                     api_key p' = resolve_api_key cfg args
                     /\ camera_index p' = resolve_camera cfg args
                     /\ window_duration p' = resolve_window_duration args
                     /\ running p' = false).
        { unfold capture_and_display, cleanup. simpl.
          destruct (run_events_settings E evs (with_running true p))
            as (-> & -> & _ & _).
          rewrite run_events_duration. simpl. repeat split; assumption. }
        destruct Hp as (Hp1 & Hp2 & Hp3 & Hp4).
        destruct course as [|msg| |]; [| |contradiction|].
        -- rewrite run_raises. simpl.
           repeat split; try assumption. left. reflexivity.
        -- simpl. repeat split; try assumption. right. eauto.
        -- simpl. repeat split; assumption.
  - intros env Hcfg Henv Harg Hcourse. unfold main.
    assert (Hk : resolve_api_key cfg args = "YOUR_API_KEY_HERE").
    { unfold resolve_api_key.
      destruct Harg as [-> | ->]; simpl; rewrite Hcfg; unfold config_api_key;
        rewrite Henv; reflexivity. }
    rewrite Hk. simpl. destruct course; try contradiction; eauto.
Qed.

Lemma main_outcomes_witness :
  let cfg := {| GEMINI_API_KEY := config_api_key ∅;
                DEFAULT_CAMERA_INDEX := 0;
                DEFAULT_FRAME_INTERVAL := 0.5 |} in
  let args := {| arg_api_key := Some ""; arg_camera := Some 1%Z;
                 arg_window_duration := None; arg_interval := None |} in
  (GEMINI_API_KEY cfg = config_api_key ∅
   /\ (∅ : gmap string string) !! "GEMINI_API_KEY" = None
   /\ (arg_api_key args = None \/ arg_api_key args = Some "")
   /\ Undisturbed <> InterruptBeforeRun)
  /\ exists printed,
       main Scenario.answering cfg args [Ingest "a desk" 0%float] Undisturbed
       = MainRefused printed.
Proof.
  intros cfg args.
  split; [split; [reflexivity | split; [reflexivity | split;
            [right; reflexivity | discriminate]]]|].
  apply (proj2 (main_outcomes Scenario.answering cfg args
                  [Ingest "a desk" 0%float] Undisturbed) ∅);
    [reflexivity | reflexivity | right; reflexivity | discriminate].
Defined.

(** Three runs of [main] with a key: undisturbed, interrupted in [run],
    and with a [cleanup] that raises. *)
Example main_last_lines :
  let cfg := {| GEMINI_API_KEY := "key"; DEFAULT_CAMERA_INDEX := 0;
                DEFAULT_FRAME_INTERVAL := 0.5 |} in
  let args := {| arg_api_key := None; arg_camera := None;
                 arg_window_duration := Some 10%float;
                 arg_interval := None |} in
  let last_line o :=
    match o with
    | MainShutDown printed | MainReturned printed _ _ => last printed
    | _ => None
    end in
  last_line (main Scenario.answering cfg args [Ingest "a desk" 0%float]
               Undisturbed)
  = Some "Error: 'CaptionPostProcessor' object has no attribute 'process_captions'"
  /\ last_line (main Scenario.answering cfg args [Ingest "a desk" 0%float]
                  InterruptInRun)
     = Some (Py.newline +:+ "Shutting down...")
  /\ last_line (main Scenario.answering cfg args [Ingest "a desk" 0%float]
                  (CleanupRaises "camera busy"))
     = Some "Error: camera busy".
Proof. vm_compute. repeat split. Qed.

(** * Frame analysis *)

(** X14.  A failed analysis is still a caption.  When encoding the frame
    or the vision call raises, the description is "Analysis error: "
    followed by the message; the thread shows it as the latest description
    and offers it as a caption like any other.  If its timestamp lies in
    the current window it is stored there, so the window is not treated
    as empty: when it expires the model is asked to summarise it (the
    window's range being one that [get_timestamp_range] can format for the
    prompt). *)
Theorem failed_analysis_is_a_caption {Frame : Type} (E : Externals)
    (V : Vision Frame) (frame : Frame) (ts now : float)
    (p : CaptionPostProcessor) (a : addr) (w : CaptionWindow)
    (m e : string) :
  current_window p = Some a -> heap p !! a = Some w -> model p = Some m ->
  (encode_jpeg V frame = inl e
   \/ exists image, encode_jpeg V frame = inr image
                    /\ describe V m analysis_prompt image = GenRaise e) ->
  (start_time w <=? ts)%float = true -> (ts <? end_time w)%float = true ->
  is_complete w now = true ->
  range_error E w = None ->
  let c := {| text := Py.strip ("Analysis error: " +:+ e); timestamp := ts |} in
  let p1 := analyze V frame ts p in
  latest_description p1 = "Analysis error: " +:+ e
  /\ exists w1,
       heap p1 !! a = Some w1
       /\ captions w1 = captions w ++ [c]
       /\ start_time w1 = start_time w
       /\ end_time w1 = end_time w
       /\ summary w1 = summary w
       /\ summarized w1 = summarized w
       /\ calls (check_window_completion E now p1)
          = calls p ++ [summary_prompt E p w1].
Proof.
  intros Hc Hw Hm Hfail Hge Hlt Hx Hr c p1.
  set (w1 := with_captions (captions w ++ [c]) w).
  assert (Hdesc : analyze_frame V p frame = "Analysis error: " +:+ e).
  { unfold analyze_frame. rewrite Hm.
    destruct Hfail as [-> | (image & -> & ->)]; reflexivity. }
  assert (Hin : in_window w (CaptionEntry_init ("Analysis error: " +:+ e) ts)
                = true).
  { unfold in_window. simpl. rewrite Hge, Hlt. reflexivity. }
  assert (Hltn : a < length (heap p)) by (eapply lookup_lt_Some; exact Hw).
  destruct (ingest_current ("Analysis error: " +:+ e) ts a w p Hc Hw)
    as (Hh & Hl & Hc1 & Hd & Hm1).
  unfold add_caption in Hh. rewrite Hin in Hh. simpl in Hh.
  assert (Hp1 : p1 = ingest ("Analysis error: " +:+ e) ts p)
    by (unfold p1, analyze; rewrite Hdesc; reflexivity).
  assert (Hw1 : heap p1 !! a = Some w1)
    by (rewrite Hp1, Hh; apply list_lookup_insert_eq; exact Hltn).
  split; [|exists w1; split; [exact Hw1|]; repeat (split; [reflexivity|])].
  - rewrite Hp1. apply (step_settings E p (Ingest _ ts)).
  - assert (Hcalls : calls p1 = calls p).
    { rewrite Hp1. unfold ingest. simpl. rewrite Hc. simpl. rewrite Hc, Hw.
      reflexivity. }
    rewrite <- Hp1 in Hc1, Hd, Hm1.
    unfold check_window_completion, current_object.
    rewrite Hc1, Hw1. change (is_complete w1 now) with (is_complete w now).
    rewrite Hx. unfold complete_current_window. rewrite Hc1, Hw1.
    destruct (captions w1) as [|c0 cs] eqn:Ec.
    { unfold w1 in Ec. simpl in Ec. destruct (captions w); discriminate. }
    unfold summarize_window. rewrite Hw1, Ec, Hm1, Hm.
    change (range_error E w1) with (range_error E w). rewrite Hr.
    assert (Hprompt : summary_prompt E p1 w1 = summary_prompt E p w1)
      by (apply summary_prompt_ext; [exact Hd | reflexivity | reflexivity]).
    assert (Hlt1 : a < length (heap p1)) by (eapply lookup_lt_Some; exact Hw1).
    destruct (generate_content E m (calls p1) (summary_prompt E p1 w1));
      simpl; rewrite Hc1, list_lookup_insert_eq by exact Hlt1; simpl;
      rewrite Hcalls, Hprompt; reflexivity.
Qed.

Lemma failed_analysis_is_a_caption_witness :
  let E := Scenario.answering in
  let p := run_events E (Scenario.fresh 10) [Ingest "a desk" 0%float] in
  let w := fst (add_caption (CaptionWindow_init 0 10)
                  (CaptionEntry_init "a desk" 0)) in
  let e := "504 Deadline Exceeded" in
  let c := {| text := Py.strip ("Analysis error: " +:+ e); timestamp := 4 |} in
  let p1 := analyze Stubs.blind "frame" 4 p in
  (current_window p = Some 0 /\ heap p !! 0 = Some w
   /\ model p = Some "gemini-2.0-flash"
   /\ (encode_jpeg Stubs.blind "frame" = inl e
       \/ exists image, encode_jpeg Stubs.blind "frame" = inr image
                        /\ describe Stubs.blind "gemini-2.0-flash"
                             analysis_prompt image = GenRaise e)
   /\ (start_time w <=? 4)%float = true /\ (4 <? end_time w)%float = true
   /\ is_complete w 35 = true
   /\ range_error E w = None)
  /\ latest_description p1 = "Analysis error: " +:+ e
  /\ exists w1,
       heap p1 !! 0 = Some w1
       /\ captions w1 = captions w ++ [c]
       /\ start_time w1 = start_time w
       /\ end_time w1 = end_time w
       /\ summary w1 = summary w
       /\ summarized w1 = summarized w
       /\ calls (check_window_completion E 35 p1)
          = calls p ++ [summary_prompt E p w1].
Proof.
  intros E p w e c p1.
  assert (Hfail : encode_jpeg Stubs.blind "frame" = inl e
                  \/ exists image, encode_jpeg Stubs.blind "frame" = inr image
                                   /\ describe Stubs.blind "gemini-2.0-flash"
                                        analysis_prompt image = GenRaise e)
    by (right; exists "frame"; split; reflexivity).
  split; [repeat split; exact Hfail|].
  apply (failed_analysis_is_a_caption E Stubs.blind "frame" 4 35 p 0 w
           "gemini-2.0-flash" e);
    solve [reflexivity | exact Hfail].
Defined.

(** * The report *)






(** The report of that run: fifteen lines, the three of the header and
    three entries, all ranges being formatted. *)
Example report_of_three_windows :
  let E := Scenario.timing_out in
  let p := fold_left (act E)
             [Loop (Ingest "a desk" 0%float); Loop (Tick 35);
              Loop (Tick 35); Loop (Ingest "a cup" 21%float);
              SealFinalWindow]
             (Scenario.fresh 10) in
  length (fst (print_summary_report E p)) = 15
  /\ snd (print_summary_report E p) = None.
Proof. vm_compute. split; reflexivity. Qed.

(** * Summaries *)

(** [str.strip] removes the whitespace of Unicode, not only that of
    ASCII: here a no-break space (U+00A0) in front and an ideographic
    space (U+3000) and a newline behind. *)
Example strip_removes_unicode_whitespace :
  let nbsp := String (ascii_of_nat 194) (String (ascii_of_nat 160) "") in
  let ideographic :=
    String (ascii_of_nat 227)
      (String (ascii_of_nat 128) (String (ascii_of_nat 128) "")) in
  Py.strip (nbsp +:+ " a desk" +:+ ideographic +:+ Py.newline) = "a desk".
Proof. reflexivity. Qed.

(** X16.  When the model answers the prompt for the expired current
    window, which holds captions and whose range can be formatted for the
    prompt, the tick leaves the window with [summarized] true and with the
    answer, stripped, as its summary, its captions, start and end as they
    were; it records the one prompt it sent, appends the window to the
    completed ones and rolls over to a new window, empty and not
    summarised, that starts at its end and spans the window duration. *)
Theorem model_answer_becomes_summary (E : Externals) (now : float)
    (p : CaptionPostProcessor) (a : addr) (w : CaptionWindow)
    (m t : string) :
  current_window p = Some a -> heap p !! a = Some w ->
  captions w <> [] -> is_complete w now = true ->
  model p = Some m ->
  range_error E w = None ->
  generate_content E m (calls p) (summary_prompt E p w) = GenText t ->
  let p' := check_window_completion E now p in
  (exists w',
     heap p' !! a = Some w'
     /\ summarized w' = true
     /\ summary w' = Py.strip t
     /\ captions w' = captions w
     /\ start_time w' = start_time w
     /\ end_time w' = end_time w)
  /\ calls p' = calls p ++ [summary_prompt E p w]
  /\ completed_windows p' = completed_windows p ++ [a]
  /\ current_window p' = Some (length (heap p))
  /\ (exists next,
        current_object p' = Some next
        /\ start_time next = end_time w
        /\ end_time next = (end_time w + window_duration p)%float
        /\ captions next = []
        /\ summary next = ""
        /\ summarized next = false).
Proof.
  intros Hc Ha Hne Hx Hm Hr Hg. simpl.
  assert (Hlt : a < length (heap p)) by (eapply lookup_lt_Some; exact Ha).
  unfold check_window_completion, current_object.
  rewrite Hc, Ha, Hx. unfold complete_current_window. rewrite Hc, Ha.
  destruct (captions w) as [|c cs] eqn:Ec; [contradiction|].
  unfold summarize_window. rewrite Ha, Hm, Ec, Hr, Hg. simpl.
  rewrite Hc, list_lookup_insert_eq by exact Hlt. simpl.
  rewrite length_insert.
  split; [|split; [|split; [|split]]]; try reflexivity.
  - exists (set_summary (Py.strip t) w). split; [|repeat split].
    + rewrite lookup_app_l by (rewrite length_insert; exact Hlt).
      apply list_lookup_insert_eq. exact Hlt.
    + simpl. exact Ec.
  - exists (CaptionWindow_init (end_time w) (window_duration p)).
    split; [|repeat split].
    rewrite lookup_app_r by (rewrite length_insert; lia).
    rewrite length_insert.
    replace (length (heap p) - length (heap p)) with 0 by lia. reflexivity.
Qed.

Lemma model_answer_becomes_summary_witness :
  let E := Scenario.answering in
  let w0 := fst (add_caption (CaptionWindow_init 0 10)
                   (CaptionEntry_init "a desk" 0)) in
  let p := run_events E (Scenario.fresh 10) [Ingest "a desk" 0%float] in
  let p' := check_window_completion E 35 p in
  (current_window p = Some 0 /\ heap p !! 0 = Some w0
   /\ captions w0 <> [] /\ is_complete w0 35 = true
   /\ model p = Some "gemini-2.0-flash"
   /\ range_error E w0 = None
   /\ generate_content E "gemini-2.0-flash" (calls p) (summary_prompt E p w0)
      = GenText " A person sat down at the desk. ")
  /\ (exists w',
        heap p' !! 0 = Some w'
        /\ summarized w' = true
        /\ summary w' = "A person sat down at the desk."
        /\ captions w' = captions w0
        /\ start_time w' = start_time w0
        /\ end_time w' = end_time w0)
  /\ calls p' = calls p ++ [summary_prompt E p w0]
  /\ completed_windows p' = [0]
  /\ current_window p' = Some 1
  /\ (exists next,
        current_object p' = Some next
        /\ start_time next = 10%float
        /\ end_time next = 20%float
        /\ captions next = []
        /\ summary next = ""
        /\ summarized next = false).
Proof.
  intros E w0 p p'.
  assert (Hne : captions w0 <> []) by discriminate.
  split; [repeat split; exact Hne|].
  apply (model_answer_becomes_summary E 35 p 0 w0 "gemini-2.0-flash"
           " A person sat down at the desk. ");
    solve [reflexivity | exact Hne].
Defined.



(** X18.  The captions text of a window that holds captions has one line
    per caption, in arrival order, each "[HH:MM:SS] text", provided no
    caption's line itself holds a line break. *)
Theorem captions_text_has_one_line_per_caption (E : Externals)
    (w : CaptionWindow) :
  captions w <> [] ->
  Forall (fun c => py_split (ascii_of_nat 10) (CaptionEntry_str E c)
                   = [CaptionEntry_str E c]) (captions w) ->
  py_split (ascii_of_nat 10) (get_captions_text E w)
  = (fun c => "[" +:+ strftime_HMS E (timestamp c) +:+ "] " +:+ text c)
      <$> captions w.
Proof.
  intros Hne Hall. unfold get_captions_text.
  change (fun c => "[" +:+ strftime_HMS E (timestamp c) +:+ "] " +:+ text c)
    with (CaptionEntry_str E).
  apply py_split_join.
  - destruct (captions w); [contradiction | discriminate].
  - apply Forall_fmap. exact Hall.
Qed.

Lemma captions_text_has_one_line_per_caption_witness :
  let E := Scenario.answering in
  let w := with_captions [CaptionEntry_init "a desk" 0;
                          CaptionEntry_init " a cup " 3]
             (CaptionWindow_init 0 30) in
  (captions w <> []
   /\ Forall (fun c => py_split (ascii_of_nat 10) (CaptionEntry_str E c)
                       = [CaptionEntry_str E c]) (captions w))
  /\ py_split (ascii_of_nat 10) (get_captions_text E w)
     = (fun c => "[" +:+ strftime_HMS E (timestamp c) +:+ "] " +:+ text c)
         <$> captions w.
Proof.
  intros E w.
  assert (Hne : captions w <> []) by discriminate.
  assert (Hall : Forall (fun c => py_split (ascii_of_nat 10)
                                    (CaptionEntry_str E c)
                                  = [CaptionEntry_str E c]) (captions w))
    by (repeat constructor).
  split; [split; assumption|].
  apply (captions_text_has_one_line_per_caption E w Hne Hall).
Defined.

(** * Captions that arrive around a rollover *)

Lemma float_leb_not_ltb (x y : float) :
  (x <=? y)%float = true -> (y <? x)%float = false.
Proof.
  intros H. destruct (y <? x)%float eqn:E; [|reflexivity].
  rewrite (float_ltb_not_leb _ _ E) in H. discriminate.
Qed.

(** X19.  The order of a tick and an ingest matters at a rollover.  Take
    a current window that is expired at [now] and a caption stamped in
    the range of the window that follows it.  If the tick comes first,
    the caption is stored in the new window.  If the caption is offered
    first, it is rejected by the expired window and dropped: after the
    tick the new window is empty, and the caption is in no window. *)
Theorem caption_before_the_tick_is_dropped (E : Externals)
    (p : CaptionPostProcessor) (a : addr) (w : CaptionWindow)
    (description : string) (ts now : float) :
  current_window p = Some a -> heap p !! a = Some w ->
  is_complete w now = true ->
  (end_time w <=? ts)%float = true ->
  (ts <? end_time w + window_duration p)%float = true ->
  let c := CaptionEntry_init description ts in
  captions <$> current_object (run_events E p [Tick now; Ingest description ts])
  = Some [c]
  /\ captions <$> current_object
                    (run_events E p [Ingest description ts; Tick now])
     = Some []
  /\ captions <$> heap (run_events E p [Ingest description ts; Tick now]) !! a
     = Some (captions w).
Proof.
  intros Hc Ha Hx Hge Hlt c.
  assert (Hlen : a < length (heap p)) by (eapply lookup_lt_Some; exact Ha).
  split; [|split].
  - change (run_events E p [Tick now; Ingest description ts])
      with (ingest description ts (check_window_completion E now p)).
    destruct (tick_expired E a w now p Hc Ha Hx) as (s & Hh & _ & Hc1 & Hd & _).
    simpl in Hh, Hc1, Hd.
    assert (Hnew : heap (check_window_completion E now p) !! length (heap p)
                   = Some (CaptionWindow_init (end_time w) (window_duration p))).
    { rewrite Hh, lookup_app_r by (rewrite length_insert; lia).
      rewrite length_insert.
      replace (length (heap p) - length (heap p)) with 0 by lia. reflexivity. }
    destruct (ingest_current description ts _ _ _ Hc1 Hnew) as (Hh2 & _ & Hc2 & _).
    simpl in Hh2, Hc2. unfold current_object. rewrite Hc2, Hh2.
    rewrite list_lookup_insert_eq by (eapply lookup_lt_Some; exact Hnew).
    unfold add_caption, in_window. simpl. rewrite Hge, Hlt. reflexivity.
  - change (run_events E p [Ingest description ts; Tick now])
      with (check_window_completion E now (ingest description ts p)).
    destruct (ingest_current description ts a w p Hc Ha) as (Hh & _ & Hc1 & _).
    simpl in Hh, Hc1.
    assert (Ha1 : heap (ingest description ts p) !! a
                  = Some (fst (add_caption w c)))
      by (rewrite Hh; apply list_lookup_insert_eq; exact Hlen).
    assert (Hx1 : is_complete (fst (add_caption w c)) now = true).
    { unfold is_complete in *.
      pose proof (range_add_caption w c) as Hr. injection Hr as _ ->.
      exact Hx. }
    destruct (tick_expired E a _ now _ Hc1 Ha1 Hx1) as (s & Hh2 & _ & Hc2 & _).
    simpl in Hh2, Hc2. unfold current_object. rewrite Hc2, Hh2.
    rewrite lookup_app_r by (rewrite length_insert; lia).
    rewrite length_insert.
    replace (length (heap (ingest description ts p))
             - length (heap (ingest description ts p))) with 0 by lia.
    reflexivity.
  - change (run_events E p [Ingest description ts; Tick now])
      with (check_window_completion E now (ingest description ts p)).
    destruct (ingest_current description ts a w p Hc Ha) as (Hh & _ & Hc1 & _).
    simpl in Hh, Hc1.
    assert (Hrej : fst (add_caption w c) = w).
    { unfold add_caption, in_window. simpl.
      rewrite (float_leb_not_ltb _ _ Hge), andb_false_r. reflexivity. }
    assert (Ha1 : heap (ingest description ts p) !! a = Some w).
    { rewrite Hh. fold c. rewrite Hrej.
      apply list_lookup_insert_eq. exact Hlen. }
    destruct (tick_expired E a w now _ Hc1 Ha1 Hx) as (s & Hh2 & _).
    simpl in Hh2. rewrite Hh2.
    rewrite lookup_app_l
      by (rewrite length_insert; eapply lookup_lt_Some; exact Ha1).
    rewrite list_lookup_insert_eq by (eapply lookup_lt_Some; exact Ha1).
    reflexivity.
Qed.

Lemma caption_before_the_tick_is_dropped_witness :
  let E := Scenario.answering in
  let p := run_events E (Scenario.fresh 10) [Ingest "a desk" 0%float] in
  let w := fst (add_caption (CaptionWindow_init 0 10)
                  (CaptionEntry_init "a desk" 0)) in
  let c := CaptionEntry_init "a cup" 12 in
  (current_window p = Some 0 /\ heap p !! 0 = Some w
   /\ is_complete w 13 = true
   /\ (end_time w <=? 12)%float = true
   /\ (12 <? end_time w + window_duration p)%float = true)
  /\ captions <$> current_object (run_events E p [Tick 13; Ingest "a cup" 12%float])
     = Some [c]
  /\ captions <$> current_object
                    (run_events E p [Ingest "a cup" 12%float; Tick 13])
     = Some []
  /\ captions <$> heap (run_events E p [Ingest "a cup" 12%float; Tick 13]) !! 0
     = Some (captions w).
Proof.
  intros E p w c. split; [repeat split|].
  apply (caption_before_the_tick_is_dropped E p 0 w "a cup" 12 13);
    reflexivity.
Defined.
